(** * pixl-cli: progress bar and table auto-fit, embedded from [cli.js]

    A shallow embedding of the parts of [cli.js] that render the progress
    bar ([progress.start], [draw], [update], [erase], [end]) and lay out
    tables ([autoFitTableRows], [table]), followed by the properties the
    specification states about them.  The rest of the text layout
    ([center], [box], [tree]), the output functions ([log], [print],
    [verbose], [warn], [die]), [prompt] and [mapArgs] are embedded after
    them, with further properties at the end of the file.

    Conventions of the embedding.
    - A JavaScript string is the list of its UTF-16 code units
      ([jsstring]); [utf16] turns a UTF-8 literal of this file into one,
      so the glyphs of the source can be written as they are there.
    - Widths, counts and indices are [Z]; amounts and clock readings are
      exact rationals [Q] (JavaScript's doubles are idealised: no
      rounding, no NaN, no infinities).
    - Arrays are lists, read with [!!] and written with [arr_set].
    - Writes to the terminal are collected, in order, in a list.
    - The packages [chalk], [pixl-tools] and [word-wrap] are outside the
      repository: the functions taken from them are Section variables.
      The display width function of the [string-width] package and the
      [widest-line] package are modelled below.
    - The file system [tree] walks is a tree of entries; the command-line
      arguments [mapArgs] renames are a finite map. *)

From Stdlib Require Import ZArith NArith QArith Qround Qminmax Lia Lqa List Ascii String Bool.
From stdpp Require Import base numbers list option pretty relations strings gmap.
From Equations Require Import Equations.
Import ListNotations.

Local Open Scope Z_scope.

(** ** JavaScript strings *)

(** A UTF-16 code unit. *)
Definition char : Type := N.
Definition jsstring : Type := list char.

(** Decoding of the UTF-8 bytes of a literal into code points. *)
Fixpoint utf8_points (bs : list N) : list N :=
  match bs with
  | [] => []
  | b0 :: r0 =>
    if (b0 <? 0x80)%N then b0 :: utf8_points r0
    else if (b0 <? 0xE0)%N then
      match r0 with
      | b1 :: r1 => ((b0 - 0xC0) * 0x40 + (b1 - 0x80))%N :: utf8_points r1
      | [] => []
      end
    else if (b0 <? 0xF0)%N then
      match r0 with
      | b1 :: b2 :: r2 =>
        ((b0 - 0xE0) * 0x1000 + (b1 - 0x80) * 0x40 + (b2 - 0x80))%N
          :: utf8_points r2
      | _ => []
      end
    else
      match r0 with
      | b1 :: b2 :: b3 :: r3 =>
        ((b0 - 0xF0) * 0x40000 + (b1 - 0x80) * 0x1000
           + (b2 - 0x80) * 0x40 + (b3 - 0x80))%N :: utf8_points r3
      | _ => []
      end
  end.

(** A code point as one or two UTF-16 code units. *)
Definition utf16_units (cp : N) : jsstring :=
  if (cp <? 0x10000)%N then [cp]
  else [(0xD800 + (cp - 0x10000) / 0x400)%N;
        (0xDC00 + (cp - 0x10000) mod 0x400)%N].

Definition utf16 (s : string) : jsstring :=
  concat (map utf16_units
            (utf8_points (map N_of_ascii (list_ascii_of_string s)))).

Definition ESC : char := 0x1B%N.
Definition CSI : char := 0x9B%N.
Definition BEL : char := 0x07%N.
Definition TAB : char := 0x09%N.
Definition SP : char := 0x20%N.
Definition ELLIPSIS : char := 0x2026%N.

Definition in_range (lo hi c : N) : bool := ((lo <=? c) && (c <=? hi))%N.

Definition one_of (s : string) (c : char) : bool :=
  existsb (N.eqb c) (map N_of_ascii (list_ascii_of_string s)).

(** [s.substring(0, n)]: a negative end counts as 0. *)
Definition substring0 (s : jsstring) (n : Z) : jsstring := take (Z.to_nat n) s.

(** ** A backtracking matcher for the regular expressions of the source

    Leftmost, greedy, first alternative first, as JavaScript's engine
    tries them.  The continuation receives what is left of the input. *)

Inductive regex : Type :=
| Eps : regex
| Cls : (char -> bool) -> regex
| Seq : regex -> regex -> regex
| Alt : regex -> regex -> regex
| Star : regex -> regex.

Definition Opt (r : regex) : regex := Alt r Eps.

Fixpoint rmatch (r : regex) (s : jsstring)
    (k : jsstring -> option jsstring) : option jsstring :=
  match r with
  | Eps => k s
  | Cls p =>
    match s with
    | c :: s' => if p c then k s' else None
    | [] => None
    end
  | Seq a b => rmatch a s (fun s' => rmatch b s' k)
  | Alt a b =>
    match rmatch a s k with
    | Some x => Some x
    | None => rmatch b s k
    end
  | Star a =>
    (fix loop (n : nat) (s : jsstring) : option jsstring :=
       match n with
       | O => k s
       | S n' =>
         match rmatch a s
                 (fun s' => if (length s' <? length s)%nat
                            then loop n' s' else None) with
         | Some x => Some x
         | None => k s
         end
       end) (length s) s
  end.

(** How many code units a match of [r] at the head of [s] takes. *)
Definition match_length (r : regex) (s : jsstring) : option nat :=
  match rmatch r s Some with
  | Some rest => Some (length s - length rest)%nat
  | None => None
  end.

(** [cli.ansiPattern] (cli.js, lines 31-34): an introducer, ESC or CSI;
    a run of the characters of "[]()#;?"; then either an optional run of
    letters and digits with any number of groups made of a semicolon and
    a run of "-a-zA-Z0-9/#&.:=?%@~_", closed by BEL; or, optionally, one
    to four digits with any number of groups made of a semicolon and up
    to four digits, closed by one character of "0-9A-PR-TZcf-ntqry=><~". *)
Definition is_digit (c : char) : bool := in_range 0x30 0x39 c.
Definition is_alnum (c : char) : bool :=
  in_range 0x61 0x7A c || in_range 0x41 0x5A c || is_digit c.
Definition is_intro (c : char) : bool := N.eqb c ESC || N.eqb c CSI.
Definition is_osc_param (c : char) : bool :=
  is_alnum c || one_of "-/#&.:=?%@~_" c.
Definition is_final (c : char) : bool :=
  is_digit c || in_range 0x41 0x50 c || in_range 0x52 0x54 c
  || N.eqb c 0x5A || N.eqb c 0x63 || in_range 0x66 0x6E c
  || one_of "tqry=><~" c.

Definition digit : regex := Cls is_digit.
Definition semi : regex := Cls (N.eqb 0x3B).
(** [\d{1,4}] and [\d{0,4}], longest first. *)
Definition digits_1_4 : regex := Seq digit (Opt (Seq digit (Opt (Seq digit (Opt digit))))).
Definition digits_0_4 : regex := Opt digits_1_4.

Definition ansiPattern : regex :=
  Seq (Cls is_intro)
   (Seq (Star (Cls (one_of "[]()#;?")))
     (Alt
       (Seq (Opt (Seq (Star (Cls is_alnum))
                      (Star (Seq semi (Star (Cls is_osc_param))))))
            (Cls (N.eqb BEL)))
       (Seq (Opt (Seq digits_1_4 (Star (Seq semi digits_0_4))))
            (Cls is_final)))).

(** [text.replace(re, '')] with the [g] flag: every match, left to right,
    is dropped.  [skip] counts the code units of a match still to drop. *)
Fixpoint remove_all (re : regex) (skip : nat) (s : jsstring) : jsstring :=
  match s with
  | [] => []
  | c :: s' =>
    match skip with
    | S n => remove_all re n s'
    | O =>
      match match_length re s with
      | Some (S n) => remove_all re n s'
      | _ => c :: remove_all re O s'
      end
    end
  end.

(** [cli.stripColor] (cli.js, line 412). *)
Definition stripColor (text : jsstring) : jsstring := remove_all ansiPattern O text.

(** ** Display width

    Model of the [string-width] package (2.x) that [cli.js] requires:
    escape sequences are stripped with the pattern above (the package
    carries the same one), then every code point counts 0 (control and
    combining characters), 2 (full-width) or 1. *)

Definition is_control (c : N) : bool :=
  (c <=? 0x1F)%N || in_range 0x7F 0x9F c.
Definition is_combining (c : N) : bool := in_range 0x300 0x36F c.

Definition isFullwidthCodePoint (x : N) : bool :=
  (0x1100 <=? x)%N &&
  ((x <=? 0x115F)%N || N.eqb x 0x2329 || N.eqb x 0x232A
   || (in_range 0x2E80 0x3247 x && negb (N.eqb x 0x303F))
   || in_range 0x3250 0x4DBF x || in_range 0x4E00 0xA4C6 x
   || in_range 0xA960 0xA97C x || in_range 0xAC00 0xD7A3 x
   || in_range 0xF900 0xFAFF x || in_range 0xFE10 0xFE19 x
   || in_range 0xFE30 0xFE6B x || in_range 0xFF01 0xFF60 x
   || in_range 0xFFE0 0xFFE6 x || in_range 0x1B000 0x1B001 x
   || in_range 0x1F200 0x1F251 x || in_range 0x20000 0x3FFFD x).

(** [str.codePointAt(0)] of a non-empty string [c :: s']. *)
Definition codePointAt (c : char) (s' : jsstring) : N :=
  match s' with
  | d :: _ =>
    if in_range 0xD800 0xDBFF c && in_range 0xDC00 0xDFFF d
    then ((c - 0xD800) * 0x400 + (d - 0xDC00) + 0x10000)%N
    else c
  | [] => c
  end.

(** The counting loop; [skip] is the [i++] taken after an astral code
    point. *)
Fixpoint count_width (skip : bool) (s : jsstring) : Z :=
  match s with
  | [] => 0
  | c :: s' =>
    if skip then count_width false s'
    else
      let code := codePointAt c s' in
      if is_control code then count_width false s'
      else if is_combining code then count_width false s'
      else (if isFullwidthCodePoint code then 2 else 1)
           + count_width (0xFFFF <? code)%N s'
  end.

Definition stringWidth (s : jsstring) : Z := count_width false (stripColor s).

(** ** Small helpers of [cli] *)

(** [cli.repeat] (line 99): nothing for a count that is 0 or negative. *)
Definition repeat (text : jsstring) (amount : Z) : jsstring :=
  if (amount <=? 0) then [] else concat (replicate (Z.to_nat amount) text).

(** [cli.space] (line 105). *)
Definition space (amount : Z) : jsstring := repeat [SP] amount.

(** [cli.pad] (line 110). *)
Definition pad (text : jsstring) (width : Z) : jsstring :=
  text ++ space (width - stringWidth text).

(** [Array.prototype.forEach] with its index argument, as a fold over the
    state the callback updates. *)
Fixpoint forEach_from {A St : Type} (f : St -> A -> nat -> St)
    (i : nat) (l : list A) (s : St) : St :=
  match l with
  | [] => s
  | x :: l' => forEach_from f (S i) l' (f s x i)
  end.

Definition forEach {A St : Type} (f : St -> A -> nat -> St) (l : list A) (s : St) : St :=
  forEach_from f O l s.

(** [arr[i] || 0] for an array of numbers. *)
Definition arr_get0 (ws : list Z) (i : nat) : Z := default 0 (ws !! i).

(** [arr[i] = v]: inside the array the element is replaced; at its end
    the array grows by one.  (The loops below hand out indices in order
    0, 1, 2, ..., so no write ever lands further out, where JavaScript
    would leave holes; such a write is modelled as padding with 0.) *)
Definition arr_set {A : Type} (hole : A) (ws : list A) (i : nat) (v : A) : list A :=
  if (i <? length ws)%nat then <[i:=v]> ws
  else ws ++ replicate (i - length ws) hole ++ [v].

(** [Math.max.apply(Math, ws)]: [None] stands for the [-Infinity] of an
    empty array. *)
Fixpoint max_of (ws : list Z) : option Z :=
  match ws with
  | [] => None
  | w :: ws' =>
    match max_of ws' with
    | None => Some w
    | Some m => Some (Z.max w m)
    end
  end.

(** [ws.indexOf(v)]: the first index holding [v]; [None] for [-1]. *)
Fixpoint indexOf (ws : list Z) (v : Z) : option nat :=
  match ws with
  | [] => None
  | w :: ws' => if w =? v then Some O else option_map S (indexOf ws' v)
  end.

(** [arr.join(sep)]. *)
Fixpoint join (sep : jsstring) (l : list jsstring) : jsstring :=
  match l with
  | [] => []
  | [x] => x
  | x :: l' => x ++ sep ++ join sep l'
  end.

(** ** The terminal *)

(** What the process sees of its surroundings at a call: whether stdout
    is a terminal ([process.stdout.isTTY]), its column count, and the
    clock ([Tools.timeNow()], in seconds). *)
Record env : Type := {
  isTTY : bool;
  columns : Z;
  now : Q
}.

(** [cli.tty] (line 47). *)
Definition tty (e : env) : bool := isTTY e.

(** [cli.width] (line 53). *)
Definition width (e : env) : Z := if negb (tty e) then 0 else columns e.

(** An [indent] option is a number of spaces or a string. *)
Inductive indent_val : Type :=
| IndentNum (n : Z)
| IndentStr (s : jsstring).

(** ** Tables: the width pass and the shrinking loop of [autoFitTableRows] *)

Definition cell : Type := jsstring.
Definition grid : Type := list (list cell).

(** The double [forEach] that keeps, per column index, the largest value
    of [metric idy col] seen (lines 255-259, 264-269 and 335-339). *)
Definition columnMax (metric : nat -> cell -> Z) (rows : grid) : list Z :=
  forEach (fun acc cols _ =>
    forEach (fun acc col idy =>
      arr_set 0 acc idy (Z.max (arr_get0 acc idy) (metric idy col)))
      cols acc)
    rows [].

(** [max_col_widths] as first computed (lines 254-259). *)
Definition naturalWidths (rows : grid) : list Z :=
  columnMax (fun _ col => stringWidth col) rows.

(** A border line (lines 272-277, 345-350, 362-367 and 381-386): the left
    corner, a run of horizontal bars per column with a joint between
    columns, the right corner. *)
Definition border (left joint right : jsstring) (widestCols : list Z) : jsstring :=
  let numCols := Z.of_nat (length widestCols) in
  forEach (fun line num idx =>
             line ++ repeat (utf16 "─") num
                  ++ (if Z.of_nat idx <? numCols - 1 then joint else []))
          widestCols left
  ++ right.

(** [measureTableWidth] (lines 261-280). *)
Definition measureTableWidth (rows : grid) (max_col_widths : list Z) : Z :=
  let widestCols :=
    columnMax (fun idy col =>
                 match max_col_widths !! idy with
                 | Some w => Z.min (stringWidth col) w
                 | None => stringWidth col
                 end + 2) rows in
  Z.of_nat (length (border (utf16 "┌") (utf16 "┬") (utf16 "┐") widestCols)).

(** [max_col_widths[idx]--]. *)
Definition decrement (idx : nat) (ws : list Z) : list Z :=
  alter (fun w : Z => w - 1) idx ws.

(** One turn of the body of the shrinking loop (lines 284-291); [None]
    when the body leaves the function through one of its [return]s. *)
Definition shrinkStep (max_col_widths : list Z) : option (list Z) :=
  match max_of max_col_widths with
  | None => None
  | Some longest_col_width =>
    if longest_col_width <? 2 then None
    else match indexOf max_col_widths longest_col_width with
         | None => None
         | Some longest_col_idx => Some (decrement longest_col_idx max_col_widths)
         end
  end.

(** How the loop ends: the table fits with these working widths, or the
    function returned from inside the loop. *)
Inductive fit : Type :=
| Fits (max_col_widths : list Z)
| GaveUp.

(** The loop terminates because the working widths, summed, go down. *)
Definition weight (ws : list Z) : nat := sum_list (Z.to_nat <$> ws).

Lemma indexOf_lookup (ws : list Z) (v : Z) (idx : nat) :
  indexOf ws v = Some idx -> ws !! idx = Some v.
Proof.
  revert idx; induction ws as [|w ws IH]; intros idx; simpl; [discriminate|].
  destruct (Z.eqb_spec w v) as [->|Hne].
  - intros [= <-]. reflexivity.
  - destruct (indexOf ws v) as [j|] eqn:E; simpl; [|discriminate].
    intros [= <-]. simpl. apply IH. reflexivity.
Qed.

Lemma weight_decrement (ws : list Z) (idx : nat) (v : Z) :
  ws !! idx = Some v -> 2 <= v ->
  (weight (decrement idx ws) < weight ws)%nat.
Proof.
  revert idx; induction ws as [|w ws IH]; intros [|idx]; simpl; try discriminate.
  - intros [= ->] Hv. unfold weight, decrement; simpl. lia.
  - intros H Hv. specialize (IH idx H Hv).
    unfold weight, decrement in *; simpl in *.
    apply (proj1 (Nat.add_lt_mono_l _ _ _)). exact IH.
Qed.

Lemma shrinkStep_weight (ws ws' : list Z) :
  shrinkStep ws = Some ws' -> (weight ws' < weight ws)%nat.
Proof.
  unfold shrinkStep. destruct (max_of ws) as [m|]; [|discriminate].
  destruct (Z.ltb_spec m 2); [discriminate|].
  destruct (indexOf ws m) as [i|] eqn:Hi; [|discriminate].
  intros [= <-]. eapply weight_decrement; [eapply indexOf_lookup; eassumption|lia].
Qed.

(** [while (measureTableWidth() > avail_width) { ... }] (lines 283-292). *)
Equations? shrinkLoop (rows : grid) (avail_width : Z) (max_col_widths : list Z) : fit
  by wf (weight max_col_widths) lt :=
  shrinkLoop rows avail_width ws with (avail_width <? measureTableWidth rows ws) => {
    | false => Fits ws
    | true with Logic.inspect (shrinkStep ws) => {
      | exist _ None _ => GaveUp
      | exist _ (Some ws') Hstep => shrinkLoop rows avail_width ws' } }.
Proof. apply shrinkStep_weight. assumption. Qed.

(** ** Tables: pruning the cells that are too wide *)

Definition is_m (c : char) : bool := N.eqb c 0x6D.

(** The shortest run of characters other than [m], and the [m] that
    follows it: what [[^m]*?m] takes at the head of [s]. *)
Fixpoint scan_m (s : jsstring) : option (jsstring * jsstring) :=
  match s with
  | [] => None
  | c :: s' =>
    if is_m c then Some ([c], s')
    else match scan_m s' with
         | Some (x, rest) => Some (c :: x, rest)
         | None => None
         end
  end.

(** A match of [/^(\u001b\[[^m]*?m)/] (line 302): the escape sequence at
    the head of [s] and what follows it. *)
Definition match_leading (s : jsstring) : option (jsstring * jsstring) :=
  match s with
  | e :: b :: s' =>
    if N.eqb e ESC && N.eqb b 0x5B then
      match scan_m s' with
      | Some (x, rest) => Some (e :: b :: x, rest)
      | None => None
      end
    else None
  | _ => None
  end.

(** [s] as a whole is one match of the pattern followed by the end of
    the input. *)
Definition whole_escape (s : jsstring) : bool :=
  match match_leading s with
  | Some (_, []) => true
  | _ => false
  end.

(** A match of [/(\u001b\[[^m]*?m)$/] (line 307): the leftmost position
    from which the rest of [s] is one escape sequence; what precedes it,
    and the sequence. *)
Fixpoint match_trailing (s : jsstring) : option (jsstring * jsstring) :=
  match s with
  | [] => None
  | c :: s' =>
    if whole_escape s then Some ([], s)
    else match match_trailing s' with
         | Some (before, esc) => Some (c :: before, esc)
         | None => None
         end
  end.

Lemma scan_m_shorter (s x rest : jsstring) :
  scan_m s = Some (x, rest) -> s = x ++ rest /\ (length rest < length s)%nat.
Proof.
  revert x rest; induction s as [|c s IH]; intros x rest; simpl; [discriminate|].
  destruct (is_m c).
  - intros [= <- <-]. simpl. split; [reflexivity|lia].
  - destruct (scan_m s) as [[x' r']|]; [|discriminate].
    intros [= <- <-]. destruct (IH x' r' eq_refl) as [-> Hl].
    simpl. split; [reflexivity|lia].
Qed.

Lemma match_leading_shorter (s esc rest : jsstring) :
  match_leading s = Some (esc, rest) ->
  s = esc ++ rest /\ (length rest < length s)%nat.
Proof.
  destruct s as [|e [|b s]]; simpl; try discriminate.
  destruct (N.eqb e ESC && N.eqb b 0x5B); [|discriminate].
  destruct (scan_m s) as [[x r]|] eqn:E; [|discriminate].
  intros [= <- <-]. destruct (scan_m_shorter _ _ _ E) as [-> Hl].
  simpl. split; [reflexivity|lia].
Qed.

Lemma match_trailing_shorter (s before esc : jsstring) :
  match_trailing s = Some (before, esc) ->
  s = before ++ esc /\ (length before < length s)%nat.
Proof.
  revert before esc; induction s as [|c s IH]; intros before esc; simpl; [discriminate|].
  destruct (whole_escape (c :: s)).
  - intros [= <- <-]. simpl. split; [reflexivity|lia].
  - destruct (match_trailing s) as [[b' e']|]; [|discriminate].
    intros [= <- <-]. destruct (IH b' e' eq_refl) as [-> Hl].
    simpl. split; [reflexivity|lia].
Qed.

(** The first [while] (lines 302-305): [prefix] collects the escape
    sequences taken off the head of [col]. *)
Equations? leadingLoop (prefix col : jsstring) : jsstring * jsstring
  by wf (length col) lt :=
  leadingLoop prefix col with Logic.inspect (match_leading col) => {
    | exist _ None _ => (prefix, col)
    | exist _ (Some (esc, rest)) Hm => leadingLoop (prefix ++ esc) rest }.
Proof. apply match_leading_shorter in Hm. apply Hm. Qed.

(** The second [while] (lines 307-310): [suffix] collects the escape
    sequences taken off the end of [col]. *)
Equations? trailingLoop (suffix col : jsstring) : jsstring * jsstring
  by wf (length col) lt :=
  trailingLoop suffix col with Logic.inspect (match_trailing col) => {
    | exist _ None _ => (suffix, col)
    | exist _ (Some (before, esc)) Hm => trailingLoop (esc ++ suffix) before }.
Proof. apply match_trailing_shorter in Hm. apply Hm. Qed.

(** The replacement of a cell that is too wide (lines 299-312). *)
Definition truncateCell (col : jsstring) (w : Z) : jsstring :=
  let '(prefix, col1) := leadingLoop [] col in
  let '(suffix, col2) := trailingLoop [] col1 in
  prefix ++ substring0 col2 (w - 1) ++ utf16 "…" ++ suffix.

(** The inner [forEach] of the pruning pass (lines 296-314) on one row:
    the callback assigns [cols[idy]] in the row it walks. *)
Definition pruneRow (max_col_widths : list Z) (cols : list cell) : list cell :=
  forEach (fun cols' col idy =>
             match max_col_widths !! idy with
             | Some w =>
               if w <? stringWidth col then <[idy := truncateCell col w]> cols'
               else cols'
             | None => cols'
             end) cols cols.

(** [autoFitTableRows] (lines 248-316).  The rows are changed in place;
    the function returns them as they are afterwards.  [indent] is
    [args.indent], a string by the time [table] calls. *)
Definition autoFitTableRows (e : env) (rows : grid) (indent : jsstring) : grid :=
  let avail_width := width e - stringWidth indent * 2 in
  if avail_width <? 1 then rows
  else
    match shrinkLoop rows avail_width (naturalWidths rows) with
    | GaveUp => rows
    | Fits max_col_widths => pruneRow max_col_widths <$> rows
    end.

(** ** Styles and [table] *)

(** An entry of a style list: the name of a chalk style, or a function
    from text to text. *)
Inductive style : Type :=
| Named (name : string)
| Func (f : jsstring -> jsstring).

(** What a call of the source does: it returns a value or throws. *)
Inductive outcome (A : Type) : Type :=
| Returned (a : A)
| Threw (error : string).
Arguments Returned {A} a.
Arguments Threw {A} error.

(** The options of [table]; an option left out is [None]. *)
Record table_args : Type := {
  headerStyles : option (list style);
  borderStyles : option (list style);
  textStyles : option (list style);
  indent : option indent_val;
  autoFit : bool
}.

Definition no_table_args : table_args :=
  {| headerStyles := None; borderStyles := None; textStyles := None;
     indent := None; autoFit := false |}.

(** [args.indent || ""], then a number turned into spaces (lines 328-329). *)
Definition table_indent (i : option indent_val) : jsstring :=
  match i with
  | None => []
  | Some (IndentStr s) => s
  | Some (IndentNum n) => if n =? 0 then [] else space n
  end.

(** The widths [table] computes at lines 334-339. *)
Definition widestCols (rows : grid) : list Z :=
  columnMax (fun _ col => stringWidth col + 2) rows.

Section Styled.

(** [chalk[name](text)], from the chalk package. *)
Variable chalk : string -> jsstring -> jsstring.

(** [cli.applyStyles] (line 193). *)
Definition applyStyles (text : jsstring) (styles : option (list style)) : jsstring :=
  match styles with
  | None => text
  | Some l =>
    fold_left (fun text st =>
                 match st with
                 | Func f => f text
                 | Named name => chalk name text
                 end) l text
  end.

(** A header or body line (lines 354-358 and 372-376). *)
Definition rowLine (cellStyles border_styles : option (list style))
    (widest : list Z) (cols : list cell) : jsstring :=
  forEach (fun line col idx =>
             let col := applyStyles (utf16 " " ++ col ++ utf16 " ") cellStyles in
             line ++ pad col (arr_get0 widest idx)
                  ++ applyStyles (utf16 "│") border_styles)
          cols (applyStyles (utf16 "│") border_styles).

(** [cli.table] (lines 318-390): the [output] array before it is joined,
    and the caller's [rows] array as the call leaves it.  With no row at
    all, [rows.shift()] is [undefined] and calling [forEach] on it
    throws. *)
Definition tableLines (e : env) (rows : grid) (args : option table_args)
    : outcome (list jsstring * grid) :=
  let args := default no_table_args args in
  let headerStyles := Some (default [Named "bold"; Named "yellow"] (headerStyles args)) in
  let borderStyles := Some (default [Named "gray"] (borderStyles args)) in
  let textStyles := Some (default [Named "cyan"] (textStyles args)) in
  let indent := table_indent (indent args) in
  let rows := if autoFit args then autoFitTableRows e rows indent else rows in
  let widest := widestCols rows in
  let top := indent ++ applyStyles (border (utf16 "┌") (utf16 "┬") (utf16 "┐") widest) borderStyles in
  match rows with
  | [] => Threw "TypeError"
  | header :: rows =>
    let head := indent ++ rowLine headerStyles borderStyles widest header in
    let divider := indent ++ applyStyles (border (utf16 "├") (utf16 "┼") (utf16 "┤") widest) borderStyles in
    let body := (fun cols => indent ++ rowLine textStyles borderStyles widest cols) <$> rows in
    let bottom := indent ++ applyStyles (border (utf16 "└") (utf16 "┴") (utf16 "┘") widest) borderStyles in
    Returned ([top; head; divider] ++ body ++ [bottom], rows)
  end.

(** The string [table] returns: [output.join("\n")]. *)
Definition table (e : env) (rows : grid) (args : option table_args)
    : outcome (jsstring * grid) :=
  match tableLines e rows args with
  | Returned (output, rows) => Returned (join [0x0A%N] output, rows)
  | Threw err => Threw err
  end.

End Styled.

(** ** The progress bar *)

(** [<] and [>=] on numbers. *)
Definition Qlt_bool (x y : Q) : bool := negb (Qle_bool y x).

(** White space as [String.prototype.trim] sees it. *)
Definition is_space (c : char) : bool :=
  in_range 0x09 0x0D c || N.eqb c 0x20 || N.eqb c 0xA0 || N.eqb c 0x1680
  || in_range 0x2000 0x200A c || in_range 0x2028 0x2029 c
  || N.eqb c 0x202F || N.eqb c 0x205F || N.eqb c 0x3000 || N.eqb c 0xFEFF.

Fixpoint trim_start (s : jsstring) : jsstring :=
  match s with
  | c :: s' => if is_space c then trim_start s' else s
  | [] => []
  end.

Definition trim (s : jsstring) : jsstring := rev (trim_start (rev (trim_start s))).

(** [s.replace(/\t/g, "    ")]. *)
Definition untab (s : jsstring) : jsstring :=
  flat_map (fun c => if N.eqb c TAB then utf16 "    " else [c]) s.

(** A string is truthy when it is not empty. *)
Definition nonempty (s : jsstring) : bool :=
  match s with [] => false | _ => true end.

Module progress.

(** [args.styles]: a key left out, or all of them after [color: false],
    is [None]. *)
Record styles_t : Type := {
  st_spinner : option (list style);
  st_braces : option (list style);
  st_bar : option (list style);
  st_indeterminate : option (list style);
  st_pct : option (list style);
  st_remain : option (list style);
  st_text : option (list style)
}.

Definition no_styles : styles_t :=
  {| st_spinner := None; st_braces := None; st_bar := None;
     st_indeterminate := None; st_pct := None; st_remain := None;
     st_text := None |}.

(** [progress.args] of a running session.  A key the source only ever
    tests for truth ([quiet], [lastRemainString], and [amount], [max],
    [text], [lastRemainCheck], [timeStart] before [start] fills them) holds
    the falsy value of its type when it is absent. *)
Record args_t : Type := {
  amount : Q;
  max : Q;
  text : jsstring;
  width : Z;
  indent : indent_val;
  freq : Z;
  color : bool;
  unicode : bool;
  remain : bool;
  spinner : list jsstring;
  braces : list jsstring;
  filling : list jsstring;
  filled : jsstring;
  styles : styles_t;
  pct : bool;
  catchInt : bool;
  catchTerm : bool;
  catchCrash : bool;
  exitOnSig : bool;
  quiet : bool;
  timeStart : Q;
  lastRemainCheck : Q;
  lastRemainString : jsstring
}.

(** An options object given to [start] or [update]: the keys it has. *)
Record options : Type := {
  o_amount : option Q;
  o_max : option Q;
  o_text : option jsstring;
  o_width : option Z;
  o_indent : option indent_val;
  o_freq : option Z;
  o_color : option bool;
  o_unicode : option bool;
  o_remain : option bool;
  o_spinner : option (list jsstring);
  o_braces : option (list jsstring);
  o_filling : option (list jsstring);
  o_filled : option jsstring;
  o_styles : option styles_t;
  o_pct : option bool;
  o_catchInt : option bool;
  o_catchTerm : option bool;
  o_catchCrash : option bool;
  o_exitOnSig : option bool;
  o_quiet : option bool;
  o_timeStart : option Q;
  o_lastRemainCheck : option Q;
  o_lastRemainString : option jsstring
}.

(** The empty object. *)
Definition no_options : options :=
  {| o_amount := None; o_max := None; o_text := None; o_width := None;
     o_indent := None; o_freq := None; o_color := None; o_unicode := None;
     o_remain := None; o_spinner := None; o_braces := None;
     o_filling := None; o_filled := None; o_styles := None; o_pct := None;
     o_catchInt := None; o_catchTerm := None; o_catchCrash := None;
     o_exitOnSig := None; o_quiet := None; o_timeStart := None;
     o_lastRemainCheck := None; o_lastRemainString := None |}.

(** [Tools.mergeHashInto(a, o)], and the [for (var key in args)] loop of
    [update]: every key of [o] is copied over [a]. *)
Definition mergeHashInto (a : args_t) (o : options) : args_t :=
  {| amount := default (amount a) (o_amount o);
     max := default (max a) (o_max o);
     text := default (text a) (o_text o);
     width := default (width a) (o_width o);
     indent := default (indent a) (o_indent o);
     freq := default (freq a) (o_freq o);
     color := default (color a) (o_color o);
     unicode := default (unicode a) (o_unicode o);
     remain := default (remain a) (o_remain o);
     spinner := default (spinner a) (o_spinner o);
     braces := default (braces a) (o_braces o);
     filling := default (filling a) (o_filling o);
     filled := default (filled a) (o_filled o);
     styles := default (styles a) (o_styles o);
     pct := default (pct a) (o_pct o);
     catchInt := default (catchInt a) (o_catchInt o);
     catchTerm := default (catchTerm a) (o_catchTerm o);
     catchCrash := default (catchCrash a) (o_catchCrash o);
     exitOnSig := default (exitOnSig a) (o_exitOnSig o);
     quiet := default (quiet a) (o_quiet o);
     timeStart := default (timeStart a) (o_timeStart o);
     lastRemainCheck := default (lastRemainCheck a) (o_lastRemainCheck o);
     lastRemainString := default (lastRemainString a) (o_lastRemainString o) |}.

(** [progress.defaults] (lines 514-539). *)
Definition defaults : args_t :=
  {| amount := 0%Q; max := 0%Q; text := [];
     spinner := utf16 <$> ["⠋"; "⠙"; "⠹"; "⠸"; "⠼"; "⠴"; "⠦"; "⠧"; "⠇"; "⠏"]%string;
     braces := utf16 <$> ["⟦"; "⟧"]%string;
     filling := utf16 <$> [" "; "⡀"; "⡄"; "⡆"; "⡇"; "⣇"; "⣧"; "⣷"]%string;
     filled := utf16 "⣿";
     indent := IndentStr [];
     styles :=
       {| st_spinner := Some [Named "bold"; Named "green"];
          st_braces := Some [Named "gray"];
          st_bar := Some [Named "bold"; Named "cyan"];
          st_indeterminate := Some [Named "gray"];
          st_pct := Some [Named "bold"; Named "yellow"];
          st_remain := Some [Named "green"];
          st_text := Some [] |};
     pct := true; width := 30; freq := 100; remain := true; color := true;
     unicode := true; catchInt := false; catchTerm := false;
     catchCrash := false; exitOnSig := true;
     quiet := false; timeStart := 0%Q; lastRemainCheck := 0%Q;
     lastRemainString := [] |}.

(** [progress.asciiOverrides] (lines 540-545). *)
Definition asciiOverrides : options :=
  {| o_spinner := Some (utf16 <$> ["|"; "/"; "-"; "\"]%string);
     o_filling := Some (utf16 <$> [" "; "."; ":"]%string);
     o_filled := Some (utf16 "#");
     o_braces := Some (utf16 <$> ["["; "]"]%string);
     o_amount := None; o_max := None; o_text := None; o_width := None;
     o_indent := None; o_freq := None; o_color := None; o_unicode := None;
     o_remain := None; o_styles := None; o_pct := None;
     o_catchInt := None; o_catchTerm := None; o_catchCrash := None;
     o_exitOnSig := None; o_quiet := None; o_timeStart := None;
     o_lastRemainCheck := None; o_lastRemainString := None |}.

(** The progress object.  [start] sets [this.args] and [this.running]
    together and [end] clears them together, and nothing else writes
    either of the two: the options are there exactly while [running] is
    true.  The record keeps the two as one field, [args], which is [None]
    for the [{}] of a session that is not running; [running] reads it.
    The guard [if (!this.running) return] of the operations is their
    [None] case. *)
Record session : Type := {
  args : option args_t;
  spinFrame : nat;
  lastLine : jsstring;
  timer : option Z
}.

Definition running (s : session) : bool :=
  match args s with Some _ => true | None => false end.

(** The process around it: what was written to stdout, oldest first,
    and the events a one-shot listener was registered for. *)
Record process : Type := {
  stdout : list jsstring;
  listeners : list string
}.

Definition write (text : jsstring) (p : process) : process :=
  {| stdout := stdout p ++ [text]; listeners := listeners p |}.

Definition once (event : string) (p : process) : process :=
  {| stdout := stdout p; listeners := listeners p ++ [event] |}.

(** The object [o] with the key [amount] set to [v]. *)
Definition with_amount (o : options) (v : Q) : options :=
  {| o_amount := Some v; o_max := o_max o; o_text := o_text o;
     o_width := o_width o; o_indent := o_indent o; o_freq := o_freq o;
     o_color := o_color o; o_unicode := o_unicode o;
     o_remain := o_remain o; o_spinner := o_spinner o;
     o_braces := o_braces o; o_filling := o_filling o;
     o_filled := o_filled o; o_styles := o_styles o; o_pct := o_pct o;
     o_catchInt := o_catchInt o; o_catchTerm := o_catchTerm o;
     o_catchCrash := o_catchCrash o; o_exitOnSig := o_exitOnSig o;
     o_quiet := o_quiet o; o_timeStart := o_timeStart o;
     o_lastRemainCheck := o_lastRemainCheck o;
     o_lastRemainString := o_lastRemainString o |}.


(** The object [o] with the key [unicode] set to [v]. *)
Definition with_unicode (o : options) (v : bool) : options :=
  {| o_amount := o_amount o; o_max := o_max o; o_text := o_text o;
     o_width := o_width o; o_indent := o_indent o; o_freq := o_freq o;
     o_color := o_color o; o_unicode := Some v; o_remain := o_remain o;
     o_spinner := o_spinner o; o_braces := o_braces o;
     o_filling := o_filling o; o_filled := o_filled o;
     o_styles := o_styles o; o_pct := o_pct o; o_catchInt := o_catchInt o;
     o_catchTerm := o_catchTerm o; o_catchCrash := o_catchCrash o;
     o_exitOnSig := o_exitOnSig o; o_quiet := o_quiet o;
     o_timeStart := o_timeStart o;
     o_lastRemainCheck := o_lastRemainCheck o;
     o_lastRemainString := o_lastRemainString o |}.

(** The object [o] with the key [spinner] set to [v]. *)
Definition with_spinner (o : options) (v : list jsstring) : options :=
  {| o_amount := o_amount o; o_max := o_max o; o_text := o_text o;
     o_width := o_width o; o_indent := o_indent o; o_freq := o_freq o;
     o_color := o_color o; o_unicode := o_unicode o;
     o_remain := o_remain o; o_spinner := Some v; o_braces := o_braces o;
     o_filling := o_filling o; o_filled := o_filled o;
     o_styles := o_styles o; o_pct := o_pct o; o_catchInt := o_catchInt o;
     o_catchTerm := o_catchTerm o; o_catchCrash := o_catchCrash o;
     o_exitOnSig := o_exitOnSig o; o_quiet := o_quiet o;
     o_timeStart := o_timeStart o;
     o_lastRemainCheck := o_lastRemainCheck o;
     o_lastRemainString := o_lastRemainString o |}.

(** The object [o] with the key [width] set to [v]. *)
Definition with_width (o : options) (v : Z) : options :=
  {| o_amount := o_amount o; o_max := o_max o; o_text := o_text o;
     o_width := Some v; o_indent := o_indent o; o_freq := o_freq o;
     o_color := o_color o; o_unicode := o_unicode o;
     o_remain := o_remain o; o_spinner := o_spinner o;
     o_braces := o_braces o; o_filling := o_filling o;
     o_filled := o_filled o; o_styles := o_styles o; o_pct := o_pct o;
     o_catchInt := o_catchInt o; o_catchTerm := o_catchTerm o;
     o_catchCrash := o_catchCrash o; o_exitOnSig := o_exitOnSig o;
     o_quiet := o_quiet o; o_timeStart := o_timeStart o;
     o_lastRemainCheck := o_lastRemainCheck o;
     o_lastRemainString := o_lastRemainString o |}.

(** [a.amount = v]. *)
Definition set_amount (a : args_t) (v : Q) : args_t :=
  mergeHashInto a
    {| o_amount := Some v;
       o_max := None; o_text := None; o_width := None;
       o_indent := None; o_freq := None; o_color := None; o_unicode := None;
       o_remain := None; o_spinner := None; o_braces := None;
       o_filling := None; o_filled := None; o_styles := None; o_pct := None;
       o_catchInt := None; o_catchTerm := None; o_catchCrash := None;
       o_exitOnSig := None; o_quiet := None; o_timeStart := None;
       o_lastRemainCheck := None; o_lastRemainString := None |}.

(** [a.indent = v]. *)
Definition set_indent (a : args_t) (v : indent_val) : args_t :=
  mergeHashInto a
    {| o_indent := Some v;
       o_amount := None; o_max := None; o_text := None; o_width := None;
       o_freq := None; o_color := None; o_unicode := None;
       o_remain := None; o_spinner := None; o_braces := None;
       o_filling := None; o_filled := None; o_styles := None; o_pct := None;
       o_catchInt := None; o_catchTerm := None; o_catchCrash := None;
       o_exitOnSig := None; o_quiet := None; o_timeStart := None;
       o_lastRemainCheck := None; o_lastRemainString := None |}.

(** [a.lastRemainString = str; a.lastRemainCheck = t]. *)
Definition set_remain_cache (a : args_t) (str : jsstring) (t : Q) : args_t :=
  mergeHashInto a
    {| o_lastRemainString := Some str; o_lastRemainCheck := Some t;
       o_amount := None; o_max := None; o_text := None; o_width := None;
       o_indent := None; o_freq := None; o_color := None; o_unicode := None;
       o_remain := None; o_spinner := None; o_braces := None;
       o_filling := None; o_filled := None; o_styles := None; o_pct := None;
       o_catchInt := None; o_catchTerm := None; o_catchCrash := None;
       o_exitOnSig := None; o_quiet := None; o_timeStart := None |}.

(** What an array element that is not there reads as, once it is styled
    or appended to the line. *)
Definition undefined : jsstring := utf16 "undefined".

(** [line = args.indent]: a number, which [update] may store, reads as
    its digits once text is appended. *)
Definition indentText (i : indent_val) : jsstring :=
  match i with
  | IndentStr s => s
  | IndentNum n => utf16 (pretty n)
  end.

(** The argument of [update]: a number, or an options object. *)
Inductive update_arg : Type :=
| Amount (n : Q)
| Options (o : options).

Section Operations.

Variable chalk : string -> jsstring -> jsstring.
(** [cli.pct(amount, max, true)], from pixl-tools. *)
Variable cli_pct : Q -> Q -> jsstring.
(** [cli.getNiceRemainingTime(elapsed, amount, max, true, true)], from
    pixl-tools. *)
Variable getNiceRemainingTime : Q -> Q -> Q -> jsstring.

(** The spinner glyph of a frame (line 617). *)
Definition spinnerGlyph (a : args_t) (frame : nat) : jsstring :=
  default undefined (spinner a !! (frame mod length (spinner a))%nat).

(** [width] of line 623: the filled part of the bar, in columns.  ([max]
    is not 0 after [start]; [update] can store a 0, and there JavaScript
    divides to an infinity or to NaN where [Q] gives 0.) *)
Definition filledWidth (a : args_t) : Q :=
  (Qmax 0 (Qmin (amount a / max a) 1) * inject_Z (width a))%Q.

(** [partial] of line 624. *)
Definition partialWidth (a : args_t) : Q :=
  (filledWidth a - inject_Z (Qfloor (filledWidth a)))%Q.

(** [bar] (lines 622-630). *)
Definition barBody (a : args_t) : jsstring :=
  let bar := repeat (filled a) (Qfloor (filledWidth a)) in
  let bar :=
    if Qlt_bool 0 (partialWidth a) then
      bar ++ default undefined
               (filling a !! Z.to_nat (Qfloor (partialWidth a
                                * inject_Z (Z.of_nat (length (filling a))))%Q))
    else bar in
  bar ++ space (width a - stringWidth bar).

(** The style list of the bar (line 632). *)
Definition barStyles (a : args_t) : option (list style) :=
  if Qeq_bool (amount a) (max a) then st_indeterminate (styles a)
  else st_bar (styles a).

(** The percentage (lines 636-640). *)
Definition pctSegment (a : args_t) : jsstring :=
  if pct a then utf16 " " ++ applyStyles chalk (cli_pct (amount a) (max a)) (st_pct (styles a))
  else [].

(** The remaining time (lines 643-654): the options with the cache as the
    block leaves it, and the text added to the line. *)
Definition remainSegment (e : env) (a : args_t) : args_t * jsstring :=
  let elapsed := (now e - timeStart a)%Q in
  if Qlt_bool 0 (amount a) && Qlt_bool (amount a) (max a)
     && Qle_bool 5 elapsed && remain a
  then
    let a :=
      if Qle_bool 1 (now e - lastRemainCheck a)%Q
      then set_remain_cache a
             (getNiceRemainingTime elapsed (amount a) (max a)) (now e)
      else a in
    (a, if nonempty (lastRemainString a)
        then applyStyles chalk (utf16 " (" ++ lastRemainString a ++ utf16 " remain)")
                         (st_remain (styles a))
        else [])
  else (a, []).

(** The custom text (lines 657-660). *)
Definition textSegment (a : args_t) : jsstring :=
  if nonempty (text a)
  then utf16 " " ++ applyStyles chalk (trim (text a)) (st_text (styles a))
  else [].

(** The line as built up to line 660, before it is padded against the
    previous one. *)
Definition composeLine (e : env) (a : args_t) (frame : nat) : args_t * jsstring :=
  let line := indentText (indent a) in
  let line := line ++ applyStyles chalk (spinnerGlyph a frame) (st_spinner (styles a)) in
  let line := line ++ utf16 " " in
  let line := line ++ applyStyles chalk (default undefined (braces a !! 0%nat))
                                  (st_braces (styles a)) in
  let line := line ++ applyStyles chalk (barBody a) (barStyles a) in
  let line := line ++ applyStyles chalk (default undefined (braces a !! 1%nat))
                                  (st_braces (styles a)) in
  let line := line ++ pctSegment a in
  let '(a, remaining) := remainSegment e a in
  let line := line ++ remaining in
  let line := line ++ textSegment a in
  (a, line).

(** "clean up last line" (lines 663-669). *)
Definition overwriteLast (lastLine line : jsstring) : jsstring :=
  if nonempty lastLine then
    let curWidth := stringWidth line in
    let lastWidth := stringWidth lastLine in
    if curWidth <? lastWidth then line ++ space (lastWidth - curWidth)
    else line
  else line.

(** [progress.draw] (lines 608-673). *)
Definition draw (e : env) (w : session * process) : session * process :=
  let '(s, p) := w in
  match args s with
  | None => w
  | Some a =>
    if negb (tty e) then w
    else
      let '(a, line) := composeLine e a (spinFrame s) in
      let line := overwriteLast (lastLine s) line in
      let p := if negb (quiet a) then write (line ++ utf16_units 0x0D) p else p in
      ({| args := Some a; spinFrame := S (spinFrame s);
          lastLine := line; timer := timer s |}, p)
  end.

(** [progress.update] (lines 675-690). *)
Definition update (e : env) (arg : update_arg) (w : session * process)
    : session * process :=
  let '(s, p) := w in
  match args s with
  | None => w
  | Some a =>
    if negb (tty e) then w
    else
      let a := match arg with
               | Amount n => set_amount a n
               | Options o => mergeHashInto a o
               end in
      let a := set_amount a (Qmax 0 (Qmin (max a) (amount a)))%Q in
      ({| args := Some a; spinFrame := spinFrame s;
          lastLine := lastLine s; timer := timer s |}, p)
  end.

(** [progress.erase] (lines 692-699). *)
Definition erase (e : env) (w : session * process) : session * process :=
  let '(s, p) := w in
  match args s with
  | None => w
  | Some a =>
    if negb (tty e) then w
    else if nonempty (lastLine s) && negb (quiet a)
    then (s, write (space (stringWidth (lastLine s)) ++ utf16_units 0x0D) p)
    else w
  end.

(** [progress.end] (lines 701-716); [flag] is its argument, [None] when
    it is left out.  The cursor is always shown again: [this.args] is
    [{}] by the time [quiet] is read from it. *)
Definition end_ (e : env) (flag : option bool) (w : session * process)
    : session * process :=
  let '(s, p) := w in
  match args s with
  | None => w
  | Some a =>
    if negb (tty e) then w
    else
      let '(s, p) := match flag with
                     | Some false => w
                     | _ => erase e w
                     end in
      ({| args := None; spinFrame := spinFrame s; lastLine := []; timer := None |},
       write (ESC :: utf16 "[?25h") p)
  end.

(** The options [start] ends up with (lines 552-571). *)
Definition startArgs (e : env) (overrides : option options) : args_t :=
  let a := mergeHashInto defaults (default no_options overrides) in
  let a :=
    {| amount := if Qeq_bool (amount a) 0 then 0%Q else amount a;
       max := if Qeq_bool (max a) 0 then 1%Q else max a;
       text := if nonempty (text a) then text a else [];
       lastRemainCheck :=
         if Qeq_bool (lastRemainCheck a) 0 then 0%Q else lastRemainCheck a;
       timeStart := if Qeq_bool (timeStart a) 0 then now e else timeStart a;
       styles := if color a then styles a else no_styles;
       width := width a; indent := indent a; freq := freq a;
       color := color a; unicode := unicode a; remain := remain a;
       spinner := spinner a; braces := braces a; filling := filling a;
       filled := filled a; pct := pct a; catchInt := catchInt a;
       catchTerm := catchTerm a; catchCrash := catchCrash a;
       exitOnSig := exitOnSig a; quiet := quiet a;
       lastRemainString := lastRemainString a |} in
  let a := if negb (unicode a) then mergeHashInto a asciiOverrides else a in
  let a := match indent a with
           | IndentNum n => set_indent a (IndentStr (space n))
           | IndentStr _ => a
           end in
  set_indent a (IndentStr (untab (indentText (indent a)))).

(** [progress.start] (lines 547-606). *)
Definition start (e : env) (overrides : option options) (w : session * process)
    : session * process :=
  let '(s, p) := w in
  if negb (tty e) then w
  else
    let a := startArgs e overrides in
    let s := {| args := Some a; spinFrame := 0; lastLine := []; timer := timer s |} in
    let '(s, p) := draw e (s, p) in
    let s := {| args := args s; spinFrame := spinFrame s;
                lastLine := lastLine s; timer := Some (freq a) |} in
    let p := if negb (quiet a) then write (ESC :: utf16 "[?25l") p else p in
    let p := once "exit" p in
    let p := if catchInt a then once "SIGINT" p else p in
    let p := if catchTerm a then once "SIGTERM" p else p in
    let p := if catchCrash a then once "uncaughtException" p else p in
    (s, p).

End Operations.

End progress.

(** * The rest of [cli]: text layout, output, prompts, trees and argument aliases *)

(** ** Lines of text *)

Definition LF : char := 0x0A%N.

(** [text.split(/\n/)]: the pieces between line feeds; the empty string
    gives one empty piece. *)
Fixpoint split_lines (s : jsstring) : list jsstring :=
  match s with
  | [] => [[]]
  | c :: s' =>
    if N.eqb c LF then [] :: split_lines s'
    else match split_lines s' with
         | l :: ls => (c :: l) :: ls
         | [] => [[c]]
         end
  end.

(** [text.match(/\n/)], as a truth value. *)
Definition has_newline (s : jsstring) : bool := existsb (N.eqb LF) s.

(** Model of the [widest-line] package that [cli.js] requires: the
    largest display width among the lines of the text. *)
Definition widestLine (text : jsstring) : Z :=
  fold_left (fun m line => Z.max m (stringWidth line)) (split_lines text) 0.

(** ** [center] *)

(** Lines 128-132 of [cli.center]: the text, already trimmed and in one
    line, between its two margins. *)
Definition centerLine (text : jsstring) (width : Z) : jsstring :=
  let margin := (width - stringWidth text) / 2 in
  let output := space margin ++ text in
  let remain := width - stringWidth output in
  output ++ space remain.

(** A call of [cli.center] on a text that has no line feed once trimmed
    (lines 118-119, then 128-132); a [width] that is left out or 0 is
    taken from the text. *)
Definition centerOne (text : jsstring) (width : Z) : jsstring :=
  let text := trim text in
  let width := if width =? 0 then widestLine text else width in
  centerLine text width.

(** [cli.center] (lines 115-133).  On a text of several lines the
    function calls itself on every line with the width it has settled;
    a line has no line feed, so those calls are [centerOne]. *)
Definition center (text : jsstring) (width : Z) : jsstring :=
  let text := trim text in
  let width := if width =? 0 then widestLine text else width in
  if has_newline text
  then join [LF] ((fun line => centerOne line width) <$> split_lines text)
  else centerLine text width.

(** ** [box] *)



Section Boxed.

Variable chalk : string -> jsstring -> jsstring.
(** [wordWrap(text, {width, indent: "", newline: "\n", trim: true,
    cut: false})], from the word-wrap package: [cli.wrap] (line 135). *)
Variable wrap : jsstring -> Z -> jsstring.



End Boxed.

(** ** Output: [log], [print], [verbose], [warn], [die] *)

(** What the output functions read and change besides the progress bar:
    [args.quiet] and [args.verbose] of the command line, the log file set
    by [setLogFile], the calls of [fs.appendFileSync] so far (file and
    text, oldest first), what was written to stderr, and the status the
    process was told to exit with. *)
Record cli_state : Type := {
  cli_quiet : bool;
  cli_verbose : bool;
  logFile : option string;
  appended : list (string * jsstring);
  stderr : list jsstring;
  exit_status : option Z;
  bar : progress.session * progress.process
}.

(** [cli.setLogFile] (line 417). *)
Definition setLogFile (file : string) (c : cli_state) : cli_state :=
  {| cli_quiet := cli_quiet c; cli_verbose := cli_verbose c;
     logFile := Some file; appended := appended c; stderr := stderr c;
     exit_status := exit_status c; bar := bar c |}.

Definition set_bar (c : cli_state) (b : progress.session * progress.process)
    : cli_state :=
  {| cli_quiet := cli_quiet c; cli_verbose := cli_verbose c;
     logFile := logFile c; appended := appended c; stderr := stderr c;
     exit_status := exit_status c; bar := b |}.

(** [process.stdout.write(msg)]. *)
Definition write_stdout (msg : jsstring) (c : cli_state) : cli_state :=
  set_bar c (fst (bar c), progress.write msg (snd (bar c))).

(** [process.stderr.write(msg)]. *)
Definition write_stderr (msg : jsstring) (c : cli_state) : cli_state :=
  {| cli_quiet := cli_quiet c; cli_verbose := cli_verbose c;
     logFile := logFile c; appended := appended c;
     stderr := stderr c ++ [msg];
     exit_status := exit_status c; bar := bar c |}.

Section Output.

Variable chalk : string -> jsstring -> jsstring.
Variable cli_pct : Q -> Q -> jsstring.
Variable getNiceRemainingTime : Q -> Q -> Q -> jsstring.
(** [Tools.getDateArgs(t)], from pixl-tools: its fields [yyyy_mm_dd] and
    [hh_mi_ss]. *)
Variable getDateArgs : Q -> jsstring * jsstring.

(** [cli.log] (lines 422-431), for a message that is a string. *)
Definition log (e : env) (msg : jsstring) (c : cli_state) : cli_state :=
  match logFile c with
  | None => c
  | Some file =>
    if String.eqb file "" then c
    else if forallb is_space msg then c
    else
      let dargs := getDateArgs (now e) in
      let line := utf16 "[" ++ fst dargs ++ utf16 " " ++ snd dargs ++ utf16 "] "
                  ++ trim (stripColor (trim msg)) ++ [LF] in
      {| cli_quiet := cli_quiet c; cli_verbose := cli_verbose c;
         logFile := logFile c; appended := appended c ++ [(file, line)];
         stderr := stderr c; exit_status := exit_status c; bar := bar c |}
  end.

(** [if (this.progress.running) this.progress.erase()]. *)
Definition erase_bar (e : env) (c : cli_state) : cli_state :=
  if progress.running (fst (bar c)) then set_bar c (progress.erase e (bar c)) else c.

(** [if (this.progress.running) this.progress.draw()]. *)
Definition draw_bar (e : env) (c : cli_state) : cli_state :=
  if progress.running (fst (bar c))
  then set_bar c (progress.draw chalk cli_pct getNiceRemainingTime e (bar c))
  else c.

(** [cli.print] (lines 433-441). *)
Definition print (e : env) (msg : jsstring) (c : cli_state) : cli_state :=
  let c := if negb (cli_quiet c)
           then draw_bar e (write_stdout msg (erase_bar e c))
           else c in
  log e msg c.

(** [cli.println] (line 443). *)
Definition println (e : env) (msg : jsstring) (c : cli_state) : cli_state :=
  print e (msg ++ [LF]) c.

(** [cli.verbose] (lines 448-452). *)
Definition verbose (e : env) (msg : jsstring) (c : cli_state) : cli_state :=
  if cli_verbose c then print e msg c else log e msg c.

(** [cli.verboseln] (line 454). *)
Definition verboseln (e : env) (msg : jsstring) (c : cli_state) : cli_state :=
  verbose e (msg ++ [LF]) c.

(** [cli.warn] (lines 459-467). *)
Definition warn (e : env) (msg : jsstring) (c : cli_state) : cli_state :=
  let c := if negb (cli_quiet c)
           then draw_bar e (write_stderr msg (erase_bar e c))
           else c in
  log e msg c.

(** [cli.warnln] (line 469). *)
Definition warnln (e : env) (msg : jsstring) (c : cli_state) : cli_state :=
  warn e (msg ++ [LF]) c.

(** [cli.die] (lines 474-479): the bar is ended, the message goes to
    stderr, and [process.exit(1)] is called.  (The listeners [start]
    registered for the exit end a bar that is still running; [die] has
    ended it by then, so they find nothing to do and are not run here.) *)
Definition die (e : env) (msg : jsstring) (c : cli_state) : cli_state :=
  let c := if progress.running (fst (bar c))
           then set_bar c (progress.end_ e None (bar c)) else c in
  let c := warn e msg c in
  {| cli_quiet := cli_quiet c; cli_verbose := cli_verbose c;
     logFile := logFile c; appended := appended c; stderr := stderr c;
     exit_status := Some 1; bar := bar c |}.

(** [cli.dieln] (line 481). *)
Definition dieln (e : env) (msg : jsstring) (c : cli_state) : cli_state :=
  die e (msg ++ [LF]) c.

End Output.

(** ** [mapArgs] *)

Section MapArgs.

(** The values of the command-line arguments. *)
Variable value : Type.


End MapArgs.

(** ** [prompt] *)

(** The question [prompt] shows (lines 65-66): the text, a space unless
    the text ends in white space, and the default between brackets when
    there is one. *)
Definition promptText (text def : jsstring) : jsstring :=
  let text := match last text with
              | Some c => if is_space c then text else text ++ utf16 " "
              | None => text ++ utf16 " "
              end in
  if nonempty def then text ++ utf16 "[" ++ def ++ utf16 "] " else text.

(** What [prompt] (lines 59-75) hands to its callback when the user
    types [typed], and the question it has shown: off a terminal, the
    default, and no question. *)
Definition prompt (e : env) (text def typed : jsstring) : option jsstring * jsstring :=
  if negb (tty e) then (None, def)
  else (Some (promptText text def), if nonempty typed then typed else def).

(** ** [tree] *)

(** What [tree] sees of the file system: the entries of a directory in
    the order [fs.readdirSync] lists them, each with its name and what
    [fs.statSync] says of it. *)
#[warnings="-register-all"] Inductive entry : Type :=
| File (filename : jsstring)
| Symlink (filename : jsstring)
| Dir (filename : jsstring) (children : list entry).

Definition entry_name (x : entry) : jsstring :=
  match x with
  | File filename | Symlink filename | Dir filename _ => filename
  end.

(** The options of [tree]; an option left out is [None].  A filter is
    given by what [filename.match] makes of it, as a truth value. *)
Record tree_args : Type := {
  folderStyles : option (list style);
  fileStyles : option (list style);
  symlinkStyles : option (list style);
  lineStyles : option (list style);
  includeFilter : option (jsstring -> bool);
  excludeFilter : option (jsstring -> bool)
}.

Definition no_tree_args : tree_args :=
  {| folderStyles := None; fileStyles := None; symlinkStyles := None;
     lineStyles := None; includeFilter := None; excludeFilter := None |}.

(** [/./]: some character that is not a line terminator. *)
Definition any_char (s : jsstring) : bool :=
  existsb (fun c => negb (N.eqb c 0x0A || N.eqb c 0x0D
                          || N.eqb c 0x2028 || N.eqb c 0x2029)) s.

(** The test of line 225, negated: the entry is listed. *)
Definition listed (a : tree_args) (x : entry) : bool :=
  default any_char (includeFilter a) (entry_name x)
  && negb (default (fun _ => false) (excludeFilter a) (entry_name x)).

(** The [forEach] of lines 224-243 over the entries of one directory:
    what it pushes on [output].  [visit] is the body for an entry that is
    listed; it is told whether the entry is the last of the directory
    ([idx == arr.length - 1], counted before any filter). *)
Definition walk (visit : bool -> entry -> list jsstring) (a : tree_args)
    : list entry -> list jsstring :=
  fix go (l : list entry) : list jsstring :=
    match l with
    | [] => []
    | x :: l' =>
      (if listed a x then visit (match l' with [] => true | _ => false end) x else [])
      ++ go l'
    end.

Section Tree.

Variable chalk : string -> jsstring -> jsstring.

Definition treePrefix (a : tree_args) (indent : jsstring) (last : bool) : jsstring :=
  indent
  ++ applyStyles chalk (utf16 " " ++ (if last then utf16 "└" else utf16 "├"))
       (Some (default [Named "gray"] (lineStyles a)))
  ++ utf16 " ".

Definition treeIndent (a : tree_args) (indent : jsstring) (last : bool) : jsstring :=
  indent
  ++ applyStyles chalk (if last then utf16 "  " else utf16 " │")
       (Some (default [Named "gray"] (lineStyles a)))
  ++ utf16 " ".

(** The body of the [forEach] for a listed entry (lines 226-242): what
    it pushes on [output].  For a directory that is its line and, unless
    it is empty, the string the call of [tree] on the directory returns:
    that call has an indent, so it pushes no line of its own before the
    entries. *)
Fixpoint treeEntry (a : tree_args) (indent : jsstring) (last : bool) (x : entry)
    : list jsstring :=
  let prefix := treePrefix a indent last in
  match x with
  | Dir filename children =>
    let results :=
      join [LF] (walk (treeEntry a (treeIndent a indent last)) a children) in
    (prefix ++ applyStyles chalk (filename ++ utf16 "/")
                 (Some (default [Named "bold"; Named "yellow"] (folderStyles a))))
    :: (if nonempty results then [results] else [])
  | Symlink filename =>
    [prefix ++ applyStyles chalk filename
                 (Some (default [Named "purple"] (symlinkStyles a)))]
  | File filename =>
    [prefix ++ applyStyles chalk filename
                 (Some (default [Named "green"] (fileStyles a)))]
  end.

(** [cli.tree] (lines 206-246) on a directory whose base name is [name]
    and whose entries are [entries]. *)
Definition tree (name : jsstring) (entries : list entry) (indent : jsstring)
    (args : option tree_args) : jsstring :=
  let a := default no_tree_args args in
  let output :=
    (if nonempty indent then []
     else [applyStyles chalk (name ++ utf16 "/")
             (Some (default [Named "bold"; Named "yellow"] (folderStyles a)))])
    ++ walk (treeEntry a indent) a entries in
  join [LF] output.

End Tree.

(** * Vocabulary of the properties *)

(** ** Stand-ins and sample states *)

(** Stand-ins for the functions of chalk and pixl-tools where a closed
    example needs some: chalk with colours off, which returns its text;
    a percentage rounded down; a remaining time that is always the same. *)
Definition plain_chalk (name : string) (text : jsstring) : jsstring := text.

Definition sample_pct (amount max : Q) : jsstring :=
  utf16 (pretty (Qfloor (amount * 100 / max))) ++ utf16 "%".

Definition sample_remain (elapsed amount max : Q) : jsstring := utf16 "5 sec".

Definition terminal : env := {| isTTY := true; columns := 80; now := 0 |}.
Definition redirected : env := {| isTTY := false; columns := 80; now := 0 |}.

Definition idle : progress.session * progress.process :=
  ({| progress.args := None; progress.spinFrame := 0;
      progress.lastLine := []; progress.timer := None |},
   {| progress.stdout := []; progress.listeners := [] |}).

(** A session as [start()] leaves it on a terminal. *)
Definition started : progress.session * progress.process :=
  progress.start plain_chalk sample_pct sample_remain terminal None idle.

(** A running session that has not drawn yet, with the default options,
    and one whose amount has reached the maximum. *)
Definition fresh : progress.session :=
  {| progress.args := Some (progress.startArgs terminal None);
     progress.spinFrame := 0; progress.lastLine := [];
     progress.timer := Some 100 |}.

Definition at_max : progress.session :=
  {| progress.args := Some (progress.set_amount (progress.startArgs terminal None) 1);
     progress.spinFrame := 0; progress.lastLine := [];
     progress.timer := Some 100 |}.

Definition silent : progress.process :=
  {| progress.stdout := []; progress.listeners := [] |}.

(** The session of the specification's example: [max] 1, [width] 10,
    [amount] one half. *)
Definition half_done : progress.args_t :=
  progress.mergeHashInto (progress.startArgs terminal None)
    (progress.with_width (progress.with_amount progress.no_options (1 # 2)) 10).

(** The overrides [{quiet: true}] and [{color: false}]. *)
Definition quietly : progress.options :=
  {| progress.o_quiet := Some true;
     progress.o_amount := None; progress.o_max := None; progress.o_text := None;
     progress.o_width := None; progress.o_indent := None; progress.o_freq := None;
     progress.o_color := None; progress.o_unicode := None; progress.o_remain := None;
     progress.o_spinner := None; progress.o_braces := None;
     progress.o_filling := None; progress.o_filled := None;
     progress.o_styles := None; progress.o_pct := None;
     progress.o_catchInt := None; progress.o_catchTerm := None;
     progress.o_catchCrash := None; progress.o_exitOnSig := None;
     progress.o_timeStart := None; progress.o_lastRemainCheck := None;
     progress.o_lastRemainString := None |}.

Definition colourless : progress.options :=
  {| progress.o_color := Some false;
     progress.o_amount := None; progress.o_max := None; progress.o_text := None;
     progress.o_width := None; progress.o_indent := None; progress.o_freq := None;
     progress.o_quiet := None; progress.o_unicode := None; progress.o_remain := None;
     progress.o_spinner := None; progress.o_braces := None;
     progress.o_filling := None; progress.o_filled := None;
     progress.o_styles := None; progress.o_pct := None;
     progress.o_catchInt := None; progress.o_catchTerm := None;
     progress.o_catchCrash := None; progress.o_exitOnSig := None;
     progress.o_timeStart := None; progress.o_lastRemainCheck := None;
     progress.o_lastRemainString := None |}.


Definition console_with_bar : cli_state :=
  {| cli_quiet := false; cli_verbose := false; logFile := Some "run.log"%string;
     appended := []; stderr := []; exit_status := None; bar := (fresh, silent) |}.

(** A stand-in for [Tools.getDateArgs]: the same date and time whatever
    the clock says. *)
Definition sample_date (t : Q) : jsstring * jsstring :=
  (utf16 "2020/01/01", utf16 "00:00:00").

(** The example grid of the specification. *)
Definition name_age : grid :=
  [[utf16 "Name"; utf16 "Age"]; [utf16 "Al"; utf16 "9"]].

(** ** Plain text and glyphs *)

(** A code unit that is one character of one column on its own: not a
    control or combining character, not full-width, not half of a
    surrogate pair. *)
Definition simple_char (c : char) : bool :=
  negb (is_control c) && negb (is_combining c)
  && negb (isFullwidthCodePoint c) && negb (in_range 0xD800 0xDFFF c)
  && (c <=? 0xFFFF)%N.

Definition simple (s : jsstring) : bool := forallb simple_char s.



(** ** Escape sequences around a cell *)

(** An escape sequence as the two patterns of the pruning pass see it:
    ESC, an opening bracket, characters other than [m], then [m]. *)
Definition is_escape (s : jsstring) : Prop :=
  exists x, s = ESC :: 0x5B%N :: x ++ [0x6D%N] /\ forallb (fun c => negb (is_m c)) x = true.

(** A run of escape sequences, one after the other. *)
Inductive escapes : jsstring -> Prop :=
| escapes_nil : escapes []
| escapes_cons (e r : jsstring) : is_escape e -> escapes r -> escapes (e ++ r).

Definition no_leading_escape (s : jsstring) : Prop :=
  ~ exists e rest, is_escape e /\ s = e ++ rest.

Definition no_trailing_escape (s : jsstring) : Prop :=
  ~ exists before e, is_escape e /\ s = before ++ e.

(** ** Tables and the shrinking loop *)

(** What the pruning pass leaves in place of the cell [col] of column
    [idy] (lines 297-313). *)
Definition pruneCell (max_col_widths : list Z) (idy : nat) (col : cell) : cell :=
  match max_col_widths !! idy with
  | Some w => if w <? stringWidth col then truncateCell col w else col
  | None => col
  end.

(** The width of the rendered table: the length of its top border, as
    [table] builds it from the rows it is given. *)
Definition tableWidth (rows : grid) : Z :=
  Z.of_nat (length (border (utf16 "┌") (utf16 "┬") (utf16 "┐") (widestCols rows))).

(** One turn of the shrinking loop: the table does not fit yet, and the
    body takes the working widths [ws] to [ws']. *)
Definition shrinks (rows : grid) (avail_width : Z) (ws ws' : list Z) : Prop :=
  avail_width < measureTableWidth rows ws /\ shrinkStep ws = Some ws'.

(** The columns seen so far never lose width. *)
Definition grows (acc acc' : list Z) : Prop :=
  forall j n, acc !! j = Some n -> exists n', acc' !! j = Some n' /\ n <= n'.


(** ** Colour sequences *)

(** The escape sequence that sets a graphic rendition: ESC, an opening
    bracket, the digits of the code, [m]. *)
Definition sgr (digits : jsstring) : jsstring :=
  ESC :: 0x5B%N :: digits ++ [0x6D%N].

(** A code of one to four digits. *)
Definition sgr_code (digits : jsstring) : bool :=
  forallb is_digit digits && (1 <=? length digits)%nat && (length digits <=? 4)%nat.

(** ** Styles that leave the text alone *)



(** ** The lines of a tree *)

Section TreeLines.

Variable chalk : string -> jsstring -> jsstring.

(** The lines of a listed entry, one after the other: its own, then
    those of the entries below it. *)
Fixpoint entryLines (a : tree_args) (indent : jsstring) (last : bool) (x : entry)
    : list jsstring :=
  match x with
  | Dir filename children =>
    (treePrefix chalk a indent last
     ++ applyStyles chalk (filename ++ utf16 "/")
          (Some (default [Named "bold"; Named "yellow"] (folderStyles a))))
    :: walk (entryLines a (treeIndent chalk a indent last)) a children
  | _ => treeEntry chalk a indent last x
  end.

End TreeLines.

(** How many entries are listed: those that pass the filters, and below
    a directory that does, those that pass in turn. *)
Fixpoint listedBelow (a : tree_args) (x : entry) : nat :=
  match x with
  | Dir _ children =>
    S ((fix count (l : list entry) : nat :=
          match l with
          | [] => 0%nat
          | y :: l' => ((if listed a y then listedBelow a y else 0) + count l')%nat
          end) children)
  | _ => 1%nat
  end.

Definition listedCount (a : tree_args) (entries : list entry) : nat :=
  (fix count (l : list entry) : nat :=
     match l with
     | [] => 0%nat
     | y :: l' => ((if listed a y then listedBelow a y else 0) + count l')%nat
     end) entries.

(** ** Text of several lines *)

(** Text made of plain characters and line feeds. *)
Definition plain_text (s : jsstring) : bool :=
  forallb (fun c => simple_char c || N.eqb c LF) s.

(** A short line above a longer one. *)
Definition two_lines : jsstring := utf16 "a" ++ [LF] ++ utf16 "bcd".

(** ** The drawn line *)

Section DrawnLine.

Import progress.

Variable chalk : string -> jsstring -> jsstring.
Variable cli_pct : Q -> Q -> jsstring.
Variable getNiceRemainingTime : Q -> Q -> Q -> jsstring.

(** The line after its spinner glyph: the space, the braces around the
    bar, the percentage, the remaining time, the text. *)
Definition afterSpinner (e : env) (a : args_t) : jsstring :=
  utf16 " "
  ++ applyStyles chalk (default undefined (braces a !! 0%nat)) (st_braces (styles a))
  ++ applyStyles chalk (barBody a) (barStyles a)
  ++ applyStyles chalk (default undefined (braces a !! 1%nat)) (st_braces (styles a))
  ++ pctSegment chalk cli_pct a
  ++ snd (remainSegment chalk getNiceRemainingTime e a)
  ++ textSegment chalk a.

End DrawnLine.

(** * The embedding at work *)

Example utf16_box : utf16 "┌─┐…" = [0x250C; 0x2500; 0x2510; 0x2026]%N.
Proof. reflexivity. Qed.

Example stringWidth_sgr :
  stringWidth (ESC :: utf16 "[1mab" ++ ESC :: utf16 "[22m") = 2.
Proof. reflexivity. Qed.

Example stringWidth_wide : stringWidth (utf16 "漢字") = 4.
Proof. reflexivity. Qed.

Example measure_ex :
  measureTableWidth [[utf16 "Name"; utf16 "Age"]; [utf16 "Al"; utf16 "9"]] [4; 3] = 14.
Proof. reflexivity. Qed.

Example shrink_ex : shrinkLoop [[utf16 "abc"]] 5 [3] = Fits [1].
Proof. reflexivity. Qed.

Example truncate_ex :
  truncateCell (ESC :: utf16 "[1mabcdef" ++ ESC :: utf16 "[22m") 4
  = ESC :: utf16 "[1mabc…" ++ ESC :: utf16 "[22m".
Proof. reflexivity. Qed.

Example autofit_ex :
  autoFitTableRows {| isTTY := true; columns := 12; now := 0 |}
    [[utf16 "Name"; utf16 "Age"]; [utf16 "Alexander"; utf16 "9"]] []
  = [[utf16 "N…"; utf16 "Age"]; [utf16 "A…"; utf16 "9"]].
Proof. vm_compute. reflexivity. Qed.

Example table_plain :
  table (fun _ text => text) {| isTTY := true; columns := 80; now := 0 |}
    [[utf16 "Name"; utf16 "Age"]; [utf16 "Al"; utf16 "9"]] None
  = Returned (join [0x0A%N]
      [utf16 "┌──────┬─────┐";
       utf16 "│ Name │ Age │";
       utf16 "├──────┼─────┤";
       utf16 "│ Al   │ 9   │";
       utf16 "└──────┴─────┘"], [[utf16 "Al"; utf16 "9"]]).
Proof. vm_compute. reflexivity. Qed.

Example start_draw_ex :
  let e := {| isTTY := true; columns := 80; now := 0 |} in
  let w := progress.start (fun _ t => t) (fun _ _ => utf16 "0%") (fun _ _ _ => [])
             e None
             ({| progress.args := None; progress.spinFrame := 0;
                 progress.lastLine := []; progress.timer := None |},
              {| progress.stdout := []; progress.listeners := [] |}) in
  progress.stdout (snd w)
  = [utf16 "⠋ ⟦                              ⟧ 0%" ++ [0x0D%N];
     ESC :: utf16 "[?25l"].
Proof. vm_compute. reflexivity. Qed.

(** * Properties of the progress bar *)

Section ProgressProperties.

Import progress.

Variable chalk : string -> jsstring -> jsstring.
Variable cli_pct : Q -> Q -> jsstring.
Variable getNiceRemainingTime : Q -> Q -> Q -> jsstring.

Let start := start chalk cli_pct getNiceRemainingTime.
Let draw := draw chalk cli_pct getNiceRemainingTime.

(** ** Operations outside a running session on a terminal *)

(** C5.  On a terminal that is not interactive [start] returns with the
    session and the output as they were, so [running] stays false; and
    when the session is not running or the terminal is not interactive,
    [update], [draw], [erase] and [end] return (the operations are total:
    nothing is thrown) with the session unchanged and nothing written. *)
Theorem outside_valid_state_noop (e : env) (w : session * process) :
  (tty e = false ->
   forall overrides, start e overrides w = w) /\
  (running (fst w) = false \/ tty e = false ->
   forall arg flag,
     update e arg w = w /\ draw e w = w /\ erase e w = w /\ end_ e flag w = w).
Proof.
  destruct w as [s p]. split.
  - intros Htty overrides. unfold start, progress.start. rewrite Htty. reflexivity.
  - intros H arg flag.
    unfold update, draw, progress.draw, erase, end_, running in *. simpl in H.
    destruct (args s) as [a|].
    + destruct H as [H|H]; [discriminate|]. rewrite H. simpl. auto.
    + auto.
Qed.

(** ** [update] clamps the amount *)



(** ** ASCII mode *)

Lemma composeLine_args (e : env) (a : args_t) (frame : nat) :
  fst (composeLine chalk cli_pct getNiceRemainingTime e a frame) = a \/
  exists str t,
    fst (composeLine chalk cli_pct getNiceRemainingTime e a frame)
    = set_remain_cache a str t.
Proof.
  unfold composeLine, remainSegment.
  destruct (Qlt_bool 0 (amount a) && Qlt_bool (amount a) (max a)
            && Qle_bool 5 (now e - timeStart a) && remain a); simpl; [|auto].
  destruct (Qle_bool 1 (now e - lastRemainCheck a)); simpl; eauto.
Qed.

(** C8, as the code has it.  [start] with [unicode: false] on a terminal
    always ends with the ASCII spinner, braces, filling and full-fill
    glyph, whatever the overrides say for those four keys: the ASCII set
    is merged after the caller's options. *)
Theorem ascii_mode_glyphs (e : env) (o : options) (w : session * process) :
  tty e = true -> o_unicode o = Some false ->
  exists a,
    args (fst (start e (Some o) w)) = Some a /\
    spinner a = utf16 <$> ["|"; "/"; "-"; "\"]%string /\
    braces a = utf16 <$> ["["; "]"]%string /\
    filling a = utf16 <$> [" "; "."; ":"]%string /\
    filled a = utf16 "#".
Proof.
  intros Htty Huni. destruct w as [s p].
  unfold start, progress.start, progress.draw. rewrite Htty.
  cbn [negb args spinFrame lastLine timer fst].
  set (a0 := startArgs e (Some o)).
  assert (Hglyphs : spinner a0 = utf16 <$> ["|"; "/"; "-"; "\"]%string /\
                    braces a0 = utf16 <$> ["["; "]"]%string /\
                    filling a0 = utf16 <$> [" "; "."; ":"]%string /\
                    filled a0 = utf16 "#").
  { clear - Huni. subst a0. destruct o as [? ? ? ? oi ? ? ou ? ? ? ? ? ? ? ? ? ? ? ? ? ? ?].
    cbn [o_unicode] in Huni. subst ou.
    destruct oi as [[n|str]|]; repeat split; reflexivity. }
  destruct (composeLine chalk cli_pct getNiceRemainingTime e a0 0) as [a1 line] eqn:Hc.
  cbn [args fst]. exists a1. split; [reflexivity|].
  destruct (composeLine_args e a0 0) as [H|(str & t & H)];
    rewrite Hc in H; cbn [fst] in H; subst a1; exact Hglyphs.
Qed.

(** ** The indeterminate state *)

Lemma Qlt_bool_irrefl_eq (x y : Q) : (x == y)%Q -> Qlt_bool x y = false.
Proof.
  intros H. unfold Qlt_bool. apply negb_false_iff, Qle_bool_iff.
  rewrite H. apply Qle_refl.
Qed.

(** C3.  For a running session on a terminal, [draw] styles the bar body
    with the [indeterminate] list when [amount] equals [max] and with the
    [bar] list when it does not; and when [amount] equals [max] the line
    has no remaining-time segment and the cached estimate is left alone,
    whatever [remain] says. *)
Theorem indeterminate_at_max (e : env) (s : session) (p : process) (a : args_t) :
  args s = Some a -> tty e = true ->
  let s' := fst (draw e (s, p)) in
  let head :=
    indentText (indent a)
    ++ applyStyles chalk (spinnerGlyph a (spinFrame s)) (st_spinner (styles a))
    ++ utf16 " "
    ++ applyStyles chalk (default undefined (braces a !! 0%nat)) (st_braces (styles a)) in
  let tail :=
    applyStyles chalk (default undefined (braces a !! 1%nat)) (st_braces (styles a))
    ++ pctSegment chalk cli_pct a in
  ((amount a == max a)%Q ->
   args s' = Some a /\
   lastLine s'
   = overwriteLast (lastLine s)
       (head ++ applyStyles chalk (barBody a) (st_indeterminate (styles a))
             ++ tail ++ textSegment chalk a)) /\
  (~ (amount a == max a)%Q ->
   exists a' remaining,
     args s' = Some a' /\
     lastLine s'
     = overwriteLast (lastLine s)
         (head ++ applyStyles chalk (barBody a) (st_bar (styles a))
               ++ tail ++ remaining ++ textSegment chalk a)).
Proof.
  intros Ha Htty. unfold draw, progress.draw. rewrite Ha, Htty. simpl.
  unfold composeLine, barStyles. split.
  - intros Heq. unfold remainSegment.
    rewrite (Qlt_bool_irrefl_eq _ _ Heq).
    rewrite andb_false_r. simpl.
    apply Qeq_bool_iff in Heq. rewrite Heq.
    split; [reflexivity|]. rewrite app_nil_r, <- !app_assoc. reflexivity.
  - intros Hne.
    destruct (Qeq_bool (amount a) (max a)) eqn:Heq;
      [apply Qeq_bool_iff in Heq; contradiction|].
    destruct (remainSegment chalk getNiceRemainingTime e a) as [a' remaining] eqn:Hr.
    simpl. exists a', remaining. split; [reflexivity|].
    assert (Ht : textSegment chalk a' = textSegment chalk a).
    { unfold remainSegment in Hr.
      destruct (Qlt_bool 0 (amount a) && Qlt_bool (amount a) (max a)
                && Qle_bool 5 (now e - timeStart a) && remain a);
        [|injection Hr as <- _; reflexivity].
      destruct (Qle_bool 1 (now e - lastRemainCheck a));
        injection Hr as <- _; reflexivity. }
    rewrite Ht, <- !app_assoc. reflexivity.
Qed.

End ProgressProperties.

Lemma outside_valid_state_noop_witness :
  (forall overrides,
     progress.start plain_chalk sample_pct sample_remain redirected overrides started
     = started) /\
  (forall arg flag,
     progress.update redirected arg started = started /\
     progress.draw plain_chalk sample_pct sample_remain redirected started = started /\
     progress.erase redirected started = started /\
     progress.end_ redirected flag started = started).
Proof.
  split.
  - apply (outside_valid_state_noop plain_chalk sample_pct sample_remain redirected started).
    reflexivity.
  - apply (outside_valid_state_noop plain_chalk sample_pct sample_remain redirected started).
    right. reflexivity.
Defined.



Lemma ascii_mode_glyphs_witness :
  exists a,
    progress.args
      (fst (progress.start plain_chalk sample_pct sample_remain terminal
              (Some (progress.with_unicode progress.no_options false)) idle))
    = Some a /\
    progress.filled a = utf16 "#".
Proof.
  destruct (ascii_mode_glyphs plain_chalk sample_pct sample_remain terminal
              (progress.with_unicode progress.no_options false) idle
              eq_refl eq_refl) as (a & Ha & _ & _ & _ & Hf).
  exists a. split; assumption.
Defined.

(** C8 as stated fails: a spinner supplied together with [unicode: false]
    is replaced by the ASCII one. *)
Lemma ascii_mode_counterexample :
  let o := progress.with_spinner
             (progress.with_unicode progress.no_options false)
             [utf16 "a"; utf16 "b"] in
  match progress.args
          (fst (progress.start plain_chalk sample_pct sample_remain terminal (Some o) idle)) with
  | Some a =>
    progress.spinner a = utf16 <$> ["|"; "/"; "-"; "\"]%string /\
    progress.spinner a <> [utf16 "a"; utf16 "b"]
  | None => False
  end.
Proof. vm_compute. split; [reflexivity|discriminate]. Qed.

Lemma indeterminate_at_max_witness :
  progress.args
    (fst (progress.draw plain_chalk sample_pct sample_remain terminal (at_max, silent)))
  = Some (progress.set_amount (progress.startArgs terminal None) 1).
Proof.
  exact (proj1 (proj1 (indeterminate_at_max plain_chalk sample_pct sample_remain
                         terminal at_max silent _ eq_refl eq_refl)
                  ltac:(reflexivity))).
Defined.

Example indeterminate_line :
  progress.lastLine
    (fst (progress.draw plain_chalk sample_pct sample_remain terminal (at_max, silent)))
  = utf16 "⠋ ⟦⣿⣿⣿⣿⣿⣿⣿⣿⣿⣿⣿⣿⣿⣿⣿⣿⣿⣿⣿⣿⣿⣿⣿⣿⣿⣿⣿⣿⣿⣿⟧ 100%".
Proof. vm_compute. reflexivity. Qed.

(** * Tables *)

Lemma pruneRow_from (ws : list Z) (done todo : list cell) :
  forEach_from
    (fun cols' col idy =>
       match ws !! idy with
       | Some w =>
         if w <? stringWidth col then <[idy := truncateCell col w]> cols' else cols'
       | None => cols'
       end) (length done) todo (done ++ todo)
  = done ++ imap (fun j => pruneCell ws (length done + j)) todo.
Proof.
  revert done; induction todo as [|c todo IH]; intros done; simpl.
  - reflexivity.
  - assert (Hstep :
      match ws !! length done with
      | Some w =>
        if w <? stringWidth c
        then <[length done := truncateCell c w]> (done ++ c :: todo)
        else done ++ c :: todo
      | None => done ++ c :: todo
      end = (done ++ [pruneCell ws (length done) c]) ++ todo).
    { unfold pruneCell. rewrite <- app_assoc. simpl.
      destruct (ws !! length done) as [w|]; [|reflexivity].
      destruct (w <? stringWidth c); [|reflexivity].
      rewrite <- (Nat.add_0_r (length done)) at 1.
      rewrite insert_app_r. reflexivity. }
    rewrite Hstep.
    replace (S (length done)) with (length (done ++ [pruneCell ws (length done) c]))
      by (rewrite length_app; simpl; lia).
    rewrite IH. rewrite <- app_assoc. simpl.
    rewrite Nat.add_0_r. f_equal. f_equal.
    apply imap_ext. intros j x _. simpl. f_equal.
    rewrite length_app. simpl. lia.
Qed.

(** The pruning pass maps every cell of a row to [pruneCell] of it. *)
Lemma pruneRow_imap (ws : list Z) (cols : list cell) :
  pruneRow ws cols = imap (pruneCell ws) cols.
Proof.
  unfold pruneRow, forEach.
  pose proof (pruneRow_from ws [] cols) as H. simpl in H. exact H.
Qed.

(** How [autoFitTableRows] leaves the rows: as they were (no room at
    all, or the loop gave up), or every row pruned to the working widths
    the loop ended with. *)
Lemma autoFitTableRows_cases (e : env) (rows : grid) (indent : jsstring) :
  autoFitTableRows e rows indent = rows \/
  exists ws,
    1 <= width e - stringWidth indent * 2 /\
    shrinkLoop rows (width e - stringWidth indent * 2) (naturalWidths rows) = Fits ws /\
    autoFitTableRows e rows indent = imap (pruneCell ws) <$> rows.
Proof.
  unfold autoFitTableRows.
  destruct (Z.ltb_spec (width e - stringWidth indent * 2) 1) as [Hlt|Hge]; [auto|].
  destruct (shrinkLoop rows _ (naturalWidths rows)) as [ws|] eqn:Hl; [|auto].
  right. exists ws. split; [lia|]. split; [reflexivity|].
  apply list_fmap_ext. intros i cols _. apply pruneRow_imap.
Qed.


Section TableProperties.

Variable chalk : string -> jsstring -> jsstring.

(** C9, as the code has it.  With default options the example grid gives
    five lines: the top border, the header, the divider, one body row and
    the bottom border, drawn with the box glyphs, the borders styled gray,
    the header cells bold and yellow, the body cells cyan; and the caller's
    array is left with the body row.  With colours off the lines are the
    plain box. *)
Theorem table_example (e : env) :
  let B := fun t => applyStyles chalk (utf16 t) (Some [Named "gray"]) in
  let H := fun t => applyStyles chalk (utf16 t) (Some [Named "bold"; Named "yellow"]) in
  let T := fun t => applyStyles chalk (utf16 t) (Some [Named "cyan"]) in
  tableLines chalk e name_age None
  = Returned
      ([ B "┌──────┬─────┐";
         B "│" ++ pad (H " Name ") 6 ++ B "│" ++ pad (H " Age ") 5 ++ B "│";
         B "├──────┼─────┤";
         B "│" ++ pad (T " Al ") 6 ++ B "│" ++ pad (T " 9 ") 5 ++ B "│";
         B "└──────┴─────┘" ],
       [[utf16 "Al"; utf16 "9"]]) /\
  table plain_chalk e name_age None
  = Returned
      (join (utf16_units 0x0A)
         [ utf16 "┌──────┬─────┐";
           utf16 "│ Name │ Age │";
           utf16 "├──────┼─────┤";
           utf16 "│ Al   │ 9   │";
           utf16 "└──────┴─────┘" ],
       [[utf16 "Al"; utf16 "9"]]).
Proof.
  assert (Hw : widestCols name_age = [6; 5]) by (vm_compute; reflexivity).
  assert (Ht : border (utf16 "┌") (utf16 "┬") (utf16 "┐") [6; 5] = utf16 "┌──────┬─────┐")
    by (vm_compute; reflexivity).
  assert (Hd : border (utf16 "├") (utf16 "┼") (utf16 "┤") [6; 5] = utf16 "├──────┼─────┤")
    by (vm_compute; reflexivity).
  assert (Hb : border (utf16 "└") (utf16 "┴") (utf16 "┘") [6; 5] = utf16 "└──────┴─────┘")
    by (vm_compute; reflexivity).
  intros B H T. split.
  - unfold tableLines.
    change (autoFit (default no_table_args None)) with false. cbv iota.
    rewrite Hw, Ht, Hd, Hb.
    unfold name_age at 1, rowLine, forEach.
    cbn [forEach_from fmap list_fmap app].
    change (arr_get0 [6; 5] 0) with 6. change (arr_get0 [6; 5] 1) with 5.
    rewrite <- !app_assoc. reflexivity.
  - vm_compute. reflexivity.
Qed.


End TableProperties.

(** C9 as stated fails: the output has five lines, not four. *)
Lemma table_example_counterexample :
  match tableLines plain_chalk terminal name_age None with
  | Returned (output, _) => length output = 5%nat /\ length output <> 4%nat
  | Threw _ => False
  end.
Proof. vm_compute. split; [reflexivity|discriminate]. Qed.

(** * Display width of plain text *)

Lemma simple_char_not_intro (c : char) : simple_char c = true -> is_intro c = false.
Proof.
  unfold simple_char, is_intro. intros H.
  destruct (N.eqb_spec c ESC) as [->|_]; [discriminate H|].
  destruct (N.eqb_spec c CSI) as [->|_]; [discriminate H|]. reflexivity.
Qed.

Lemma match_length_not_intro (c : char) (s : jsstring) :
  is_intro c = false -> match_length ansiPattern (c :: s) = None.
Proof.
  intros H. unfold match_length, ansiPattern. cbn [rmatch]. rewrite H. reflexivity.
Qed.

Lemma stripColor_simple (s : jsstring) : simple s = true -> stripColor s = s.
Proof.
  unfold stripColor, simple. induction s as [|c s IH]; [reflexivity|].
  cbn [forallb remove_all]. intros H. apply andb_true_iff in H as [Hc Hs].
  rewrite (match_length_not_intro c s (simple_char_not_intro c Hc)).
  rewrite (IH Hs). reflexivity.
Qed.

Lemma codePointAt_simple (c : char) (s : jsstring) :
  simple_char c = true -> codePointAt c s = c.
Proof.
  unfold simple_char, codePointAt. intros H.
  destruct s as [|d s]; [reflexivity|].
  destruct (in_range 0xD800 0xDBFF c) eqn:Hh; [|reflexivity].
  exfalso. apply andb_true_iff in H as [H _]. apply andb_true_iff in H as [_ H].
  apply negb_true_iff in H. unfold in_range in *.
  apply andb_true_iff in Hh as [H1 H2].
  apply N.leb_le in H1, H2.
  apply andb_false_iff in H as [H|H]; apply N.leb_gt in H; lia.
Qed.

Lemma count_width_simple (s : jsstring) :
  simple s = true -> count_width false s = Z.of_nat (length s).
Proof.
  unfold simple. induction s as [|c s IH]; [reflexivity|].
  cbn [forallb]. intros H. apply andb_true_iff in H as [Hc Hs].
  cbn [count_width length]. rewrite (codePointAt_simple c s Hc).
  pose proof Hc as Hc'. unfold simple_char in Hc'.
  repeat (apply andb_true_iff in Hc' as [Hc' ?]).
  apply negb_true_iff in Hc'.
  repeat match goal with H : negb _ = true |- _ => apply negb_true_iff in H end.
  rewrite Hc'.
  replace (is_combining c) with false by congruence.
  replace (isFullwidthCodePoint c) with false by congruence.
  replace (0xFFFF <? c)%N with false
    by (symmetry; apply N.ltb_ge, N.leb_le; assumption).
  rewrite (IH Hs). lia.
Qed.

(** Plain text is as wide as it is long. *)
Lemma stringWidth_simple (s : jsstring) :
  simple s = true -> stringWidth s = Z.of_nat (length s).
Proof.
  intros H. unfold stringWidth. rewrite (stripColor_simple s H).
  apply count_width_simple, H.
Qed.

Lemma simple_app (a b : jsstring) : simple (a ++ b) = simple a && simple b.
Proof. apply forallb_app. Qed.


Lemma repeat_simple (g : jsstring) (n : Z) :
  simple g = true -> simple (repeat g n) = true.
Proof.
  intros Hg. unfold repeat. destruct (n <=? 0); [reflexivity|].
  induction (Z.to_nat n) as [|k IH]; [reflexivity|].
  simpl. rewrite simple_app, Hg, IH. reflexivity.
Qed.

Lemma repeat_length (g : jsstring) (n : Z) :
  0 <= n -> Z.of_nat (length (repeat g n)) = n * Z.of_nat (length g).
Proof.
  intros Hn. unfold repeat. destruct (Z.leb_spec n 0) as [H0|Hpos].
  - assert (n = 0) by lia. subst. reflexivity.
  - rewrite <- (Z2Nat.id n) at 2 by lia.
    induction (Z.to_nat n) as [|k IH]; [reflexivity|].
    simpl. rewrite length_app. lia.
Qed.

Lemma space_simple (n : Z) : simple (space n) = true.
Proof. apply repeat_simple. reflexivity. Qed.

Lemma space_length (n : Z) : 0 <= n -> Z.of_nat (length (space n)) = n.
Proof. intros Hn. unfold space. rewrite repeat_length by exact Hn. simpl. lia. Qed.

(** * The bar body *)

Section BarProperties.

Import progress.











End BarProperties.


Example bar_body_half : progress.barBody half_done = utf16 "⣿⣿⣿⣿⣿     ".
Proof. vm_compute. reflexivity. Qed.

(** * Truncation of a cell *)

Lemma is_m_spec (c : char) : is_m c = true <-> c = 0x6D%N.
Proof. unfold is_m. apply N.eqb_eq. Qed.

Lemma scan_m_sound (s x rest : jsstring) :
  scan_m s = Some (x, rest) ->
  exists y, x = y ++ [0x6D%N] /\ forallb (fun c => negb (is_m c)) y = true /\ s = x ++ rest.
Proof.
  revert x rest; induction s as [|c s IH]; intros x rest; simpl; [discriminate|].
  destruct (is_m c) eqn:Hc.
  - intros [= <- <-]. apply is_m_spec in Hc. subst c.
    exists []. repeat split; reflexivity.
  - destruct (scan_m s) as [[x' r']|]; [|discriminate].
    intros [= <- <-]. destruct (IH x' r' eq_refl) as (y & -> & Hy & ->).
    exists (c :: y). simpl. rewrite Hc, Hy. repeat split; reflexivity.
Qed.

Lemma scan_m_complete (y rest : jsstring) :
  forallb (fun c => negb (is_m c)) y = true ->
  scan_m (y ++ 0x6D%N :: rest) = Some (y ++ [0x6D%N], rest).
Proof.
  induction y as [|c y IH]; simpl; [reflexivity|].
  intros H. apply andb_true_iff in H as [Hc Hy].
  apply negb_true_iff in Hc. rewrite Hc, (IH Hy). reflexivity.
Qed.

Lemma match_leading_sound (s e rest : jsstring) :
  match_leading s = Some (e, rest) -> is_escape e /\ s = e ++ rest.
Proof.
  destruct s as [|c [|b s]]; simpl; try discriminate.
  destruct (N.eqb_spec c ESC) as [->|]; [|discriminate].
  destruct (N.eqb_spec b 0x5B) as [->|]; [|discriminate]. simpl.
  destruct (scan_m s) as [[x r]|] eqn:E; [|discriminate].
  intros [= <- <-]. destruct (scan_m_sound _ _ _ E) as (y & -> & Hy & ->).
  split; [exists y; split; [reflexivity|exact Hy]|reflexivity].
Qed.

Lemma match_leading_complete (e rest : jsstring) :
  is_escape e -> match_leading (e ++ rest) = Some (e, rest).
Proof.
  intros (x & -> & Hx).
  change ((ESC :: 0x5B%N :: x ++ [0x6D%N]) ++ rest)
    with (ESC :: 0x5B%N :: (x ++ [0x6D%N]) ++ rest).
  rewrite <- app_assoc. cbn [app]. unfold match_leading.
  rewrite !N.eqb_refl. cbn [andb].
  pose proof (scan_m_complete x rest Hx) as Hs.
  unfold jsstring, char in *. rewrite Hs. reflexivity.
Qed.

Lemma match_leading_none (s : jsstring) :
  match_leading s = None -> no_leading_escape s.
Proof.
  intros H (e & rest & He & ->). rewrite (match_leading_complete e rest He) in H.
  discriminate.
Qed.

Lemma whole_escape_spec (s : jsstring) : whole_escape s = true <-> is_escape s.
Proof.
  unfold whole_escape. split.
  - destruct (match_leading s) as [[e [|c r]]|] eqn:E; try discriminate.
    intros _. destruct (match_leading_sound _ _ _ E) as [He ->].
    rewrite app_nil_r. exact He.
  - intros He. rewrite <- (app_nil_r s), (match_leading_complete s [] He). reflexivity.
Qed.

Lemma match_trailing_sound (s before e : jsstring) :
  match_trailing s = Some (before, e) -> is_escape e /\ s = before ++ e.
Proof.
  revert before e; induction s as [|c s IH]; intros before e; simpl; [discriminate|].
  destruct (whole_escape (c :: s)) eqn:Hw.
  - intros [= <- <-]. split; [apply whole_escape_spec, Hw|reflexivity].
  - destruct (match_trailing s) as [[b' e']|]; [|discriminate].
    intros [= <- <-]. destruct (IH b' e' eq_refl) as [He ->].
    split; [exact He|reflexivity].
Qed.

Lemma is_escape_nonempty (e : jsstring) : is_escape e -> e <> [].
Proof. intros (x & -> & _). discriminate. Qed.

Lemma match_trailing_none (s : jsstring) :
  match_trailing s = None -> no_trailing_escape s.
Proof.
  induction s as [|c s IH]; simpl.
  - intros _ (before & e & He & Heq).
    symmetry in Heq. apply app_eq_nil in Heq as [_ ->].
    exact (is_escape_nonempty [] He eq_refl).
  - destruct (whole_escape (c :: s)) eqn:Hw; [discriminate|].
    destruct (match_trailing s) as [[b' e']|] eqn:E; [discriminate|].
    intros _ (before & e & He & Heq).
    destruct before as [|c' before']; simpl in Heq.
    + subst e. apply whole_escape_spec in He. congruence.
    + injection Heq as <- ->. apply (IH eq_refl). eauto.
Qed.

Lemma escapes_app (p q : jsstring) : escapes p -> escapes q -> escapes (p ++ q).
Proof.
  intros Hp Hq. induction Hp as [|e r He Hr IH]; [exact Hq|].
  rewrite <- app_assoc. apply escapes_cons; assumption.
Qed.

Lemma escapes_one (e : jsstring) : is_escape e -> escapes e.
Proof.
  intros He. rewrite <- (app_nil_r e). apply escapes_cons; [exact He|apply escapes_nil].
Qed.

(** The first loop takes off every leading escape sequence, in order. *)
Lemma leadingLoop_spec (prefix col : jsstring) :
  exists p core,
    leadingLoop prefix col = (prefix ++ p, core) /\
    col = p ++ core /\ escapes p /\ no_leading_escape core.
Proof.
  funelim (leadingLoop prefix col).
  - destruct H as (p & core & Heq & Hcol & Hp & Hcore).
    destruct (match_leading_sound _ _ _ Hm) as [Hesc ->].
    exists (esc ++ p), core. rewrite Heq, Hcol, <- !app_assoc.
    split; [reflexivity|]. split; [reflexivity|].
    split; [|exact Hcore].
    apply escapes_cons; assumption.
  - exists [], col. rewrite app_nil_r.
    repeat split; [apply escapes_nil|apply match_leading_none; assumption].
Qed.

(** The second loop takes off every trailing escape sequence, keeping
    their order. *)
Lemma trailingLoop_spec (suffix col : jsstring) :
  exists q core,
    trailingLoop suffix col = (q ++ suffix, core) /\
    col = core ++ q /\ escapes q /\ no_trailing_escape core.
Proof.
  funelim (trailingLoop suffix col).
  - destruct H as (q & core & Heq & Hcol & Hq & Hcore).
    destruct (match_trailing_sound _ _ _ Hm) as [Hesc ->].
    exists (q ++ esc), core. rewrite Heq, Hcol, <- !app_assoc.
    split; [reflexivity|]. split; [reflexivity|].
    split; [|exact Hcore].
    apply escapes_app; [exact Hq|apply escapes_one, Hesc].
  - exists [], col. rewrite app_nil_r.
    repeat split; [apply escapes_nil|apply match_trailing_none; assumption].
Qed.

(** What [truncateCell] returns. *)
Lemma truncateCell_spec (col : jsstring) (w : Z) :
  exists prefix core suffix,
    col = prefix ++ core ++ suffix /\
    escapes prefix /\ escapes suffix /\
    no_leading_escape core /\ no_trailing_escape core /\
    truncateCell col w = prefix ++ substring0 core (w - 1) ++ [ELLIPSIS] ++ suffix.
Proof.
  unfold truncateCell.
  destruct (leadingLoop_spec [] col) as (p & col1 & Hl & Hcol & Hp & Hlead).
  destruct (trailingLoop_spec [] col1) as (q & core & Ht & Hcol1 & Hq & Htrail).
  rewrite Hl, Ht. simpl. rewrite app_nil_r.
  exists p, core, q. subst col col1.
  repeat split; try assumption.
  intros (e & rest & He & ->). apply Hlead.
  exists e, (rest ++ q). split; [exact He|]. rewrite <- app_assoc. reflexivity.
Qed.

(** C6.  A cell wider than the final working width [w] of its column is
    replaced by: the leading escape sequences of the cell, all of them
    and in their order; the first [w - 1] characters of what remains
    between the leading and the trailing escape sequences; one ellipsis;
    the trailing escape sequences, all of them and in their order. *)
Theorem truncation_keeps_escapes (ws : list Z) (cols : list cell)
    (idy : nat) (col : cell) (w : Z) :
  cols !! idy = Some col -> ws !! idy = Some w -> w < stringWidth col ->
  exists prefix core suffix,
    col = prefix ++ core ++ suffix /\
    escapes prefix /\ escapes suffix /\
    no_leading_escape core /\ no_trailing_escape core /\
    pruneRow ws cols !! idy
    = Some (prefix ++ take (Z.to_nat (w - 1)) core ++ [ELLIPSIS] ++ suffix).
Proof.
  intros Hcol Hw Hwide.
  destruct (truncateCell_spec col w) as (p & core & q & H1 & H2 & H3 & H4 & H5 & H6).
  exists p, core, q. repeat split; try assumption.
  rewrite pruneRow_imap, list_lookup_imap, Hcol. simpl.
  unfold pruneCell. rewrite Hw.
  destruct (Z.ltb_spec w (stringWidth col)) as [_|Hge]; [|lia].
  rewrite H6. reflexivity.
Qed.

Lemma truncation_keeps_escapes_witness :
  exists prefix core suffix,
    ESC :: utf16 "[1mabcdef" ++ ESC :: utf16 "[22m" = prefix ++ core ++ suffix /\
    pruneRow [4] [ESC :: utf16 "[1mabcdef" ++ ESC :: utf16 "[22m"] !! 0%nat
    = Some (prefix ++ take 3 core ++ [ELLIPSIS] ++ suffix).
Proof.
  destruct (truncation_keeps_escapes [4]
              [ESC :: utf16 "[1mabcdef" ++ ESC :: utf16 "[22m"] 0
              (ESC :: utf16 "[1mabcdef" ++ ESC :: utf16 "[22m") 4
              eq_refl eq_refl ltac:(vm_compute; reflexivity))
    as (p & core & q & H1 & _ & _ & _ & _ & H6).
  exists p, core, q. split; [exact H1|exact H6].
Defined.

(** * Erasing and redrawing *)

Section RedrawProperties.

Import progress.

Variable chalk : string -> jsstring -> jsstring.
Variable cli_pct : Q -> Q -> jsstring.
Variable getNiceRemainingTime : Q -> Q -> Q -> jsstring.

Lemma composeLine_split (e : env) (a : args_t) (frame : nat) :
  composeLine chalk cli_pct getNiceRemainingTime e a frame
  = (fst (remainSegment chalk getNiceRemainingTime e a),
     indentText (indent a)
     ++ applyStyles chalk (spinnerGlyph a frame) (st_spinner (styles a))
     ++ afterSpinner chalk cli_pct getNiceRemainingTime e a).
Proof.
  unfold composeLine, afterSpinner.
  destruct (remainSegment chalk getNiceRemainingTime e a) as [a' r] eqn:Hr.
  cbn [fst snd].
  assert (Ht : textSegment chalk a' = textSegment chalk a).
  { unfold remainSegment in Hr.
    destruct (Qlt_bool 0 (amount a) && Qlt_bool (amount a) (max a)
              && Qle_bool 5 (now e - timeStart a) && remain a);
      [|injection Hr as <- _; reflexivity].
    destruct (Qle_bool 1 (now e - lastRemainCheck a));
      injection Hr as <- _; reflexivity. }
  rewrite Ht, <- !app_assoc. reflexivity.
Qed.

Lemma Qle_bool_1_diff (x : Q) : Qle_bool 1 (x - x) = false.
Proof.
  destruct (Qle_bool 1 (x - x)) eqn:E; [|reflexivity].
  apply Qle_bool_iff in E. exfalso. lra.
Qed.

(** Drawn again at the same clock reading, the remaining-time block
    gives the same text and leaves the cache as it is. *)
Lemma remainSegment_again (e : env) (a : args_t) :
  remainSegment chalk getNiceRemainingTime e
    (fst (remainSegment chalk getNiceRemainingTime e a))
  = remainSegment chalk getNiceRemainingTime e a.
Proof.
  unfold remainSegment.
  destruct (Qlt_bool 0 (amount a) && Qlt_bool (amount a) (max a)
            && Qle_bool 5 (now e - timeStart a) && remain a) eqn:Hc;
    cbn [fst]; [|rewrite Hc; reflexivity].
  destruct (Qle_bool 1 (now e - lastRemainCheck a)) eqn:Ht; cbn [fst].
  - cbn [set_remain_cache mergeHashInto amount max timeStart remain
         lastRemainCheck lastRemainString styles default
         o_amount o_max o_timeStart o_remain o_lastRemainCheck
         o_lastRemainString o_styles].
    rewrite Hc, Qle_bool_1_diff. reflexivity.
  - rewrite Hc, Ht. reflexivity.
Qed.

Lemma afterSpinner_again (e : env) (a : args_t) :
  afterSpinner chalk cli_pct getNiceRemainingTime e (fst (remainSegment chalk getNiceRemainingTime e a))
  = afterSpinner chalk cli_pct getNiceRemainingTime e a.
Proof.
  unfold afterSpinner. rewrite remainSegment_again.
  unfold remainSegment.
  destruct (Qlt_bool 0 (amount a) && Qlt_bool (amount a) (max a)
            && Qle_bool 5 (now e - timeStart a) && remain a);
    [|reflexivity].
  destruct (Qle_bool 1 (now e - lastRemainCheck a)); reflexivity.
Qed.

(** C7, as the code has it.  On a terminal, for a running session,
    [draw] followed by [erase] and, at the same clock reading, [draw]
    again: [erase] leaves the session as it is and, unless [quiet] is set
    or the line is empty, writes as many spaces as the line drawn before
    is wide, then a carriage return; the second [draw] then renders the
    indent, the spinner glyph of the next frame and, after it, the same
    braces, bar, percentage, remaining time and text as the line before
    the erase, padded against that line. *)
Theorem erase_then_draw (e : env) (s0 : session) (p0 : process) (a0 : args_t) :
  args s0 = Some a0 -> tty e = true ->
  let draw := draw chalk cli_pct getNiceRemainingTime in
  let w1 := draw e (s0, p0) in
  let w2 := erase e w1 in
  let w3 := draw e w2 in
  let line frame :=
    indentText (indent a0)
    ++ applyStyles chalk (spinnerGlyph a0 frame) (st_spinner (styles a0))
    ++ afterSpinner chalk cli_pct getNiceRemainingTime e a0 in
  lastLine (fst w1) = overwriteLast (lastLine s0) (line (spinFrame s0)) /\
  fst w2 = fst w1 /\
  lastLine (fst w3) = overwriteLast (lastLine (fst w1)) (line (S (spinFrame s0))) /\
  stdout (snd w3)
  = stdout (snd w1)
    ++ (if nonempty (lastLine (fst w1)) && negb (quiet a0)
        then [space (stringWidth (lastLine (fst w1))) ++ utf16_units 0x0D]
        else [])
    ++ (if negb (quiet a0) then [lastLine (fst w3) ++ utf16_units 0x0D] else []).
Proof.
  intros Ha Htty draw w1 w2 w3 line.
  set (a1 := fst (remainSegment chalk getNiceRemainingTime e a0)).
  assert (Hq : quiet a1 = quiet a0 /\ indent a1 = indent a0 /\
               styles a1 = styles a0 /\ spinner a1 = spinner a0).
  { destruct (composeLine_args chalk cli_pct getNiceRemainingTime e a0 0)
      as [H|(str & t & H)];
      rewrite composeLine_split in H; cbn [fst] in H; fold a1 in H;
      rewrite H; repeat split; reflexivity. }
  destruct Hq as (Hq & Hi & Hst & Hsp).
  assert (H1 : w1 = ({| args := Some a1; spinFrame := S (spinFrame s0);
                        lastLine := overwriteLast (lastLine s0) (line (spinFrame s0));
                        timer := timer s0 |},
                     if negb (quiet a0)
                     then write (overwriteLast (lastLine s0) (line (spinFrame s0))
                                 ++ utf16_units 0x0D) p0
                     else p0)).
  { unfold w1, draw, progress.draw. rewrite Ha, Htty. cbn [negb].
    rewrite composeLine_split. cbv beta iota zeta. fold a1. rewrite Hq.
    reflexivity. }
  set (L1 := overwriteLast (lastLine s0) (line (spinFrame s0))) in *.
  set (p1 := if negb (quiet a0) then write (L1 ++ utf16_units 0x0D) p0 else p0) in *.
  assert (H2 : w2 = ({| args := Some a1; spinFrame := S (spinFrame s0);
                        lastLine := L1; timer := timer s0 |},
                     if nonempty L1 && negb (quiet a0)
                     then write (space (stringWidth L1) ++ utf16_units 0x0D) p1
                     else p1)).
  { unfold w2. rewrite H1. unfold erase. cbn [args lastLine]. rewrite Htty, Hq.
    cbn [negb]. destruct (nonempty L1 && negb (quiet a0)); reflexivity. }
  assert (Hline : indentText (indent a1)
                  ++ applyStyles chalk (spinnerGlyph a1 (S (spinFrame s0)))
                       (st_spinner (styles a1))
                  ++ afterSpinner chalk cli_pct getNiceRemainingTime e a1 = line (S (spinFrame s0))).
  { unfold line, spinnerGlyph. rewrite Hi, Hst, Hsp.
    unfold a1. rewrite afterSpinner_again. reflexivity. }
  assert (H3 : w3 = ({| args := Some a1; spinFrame := S (S (spinFrame s0));
                        lastLine := overwriteLast L1 (line (S (spinFrame s0)));
                        timer := timer s0 |},
                     let p2 := if nonempty L1 && negb (quiet a0)
                               then write (space (stringWidth L1) ++ utf16_units 0x0D) p1
                               else p1 in
                     if negb (quiet a0)
                     then write (overwriteLast L1 (line (S (spinFrame s0)))
                                 ++ utf16_units 0x0D) p2
                     else p2)).
  { unfold w3. rewrite H2. unfold draw, progress.draw.
    cbn [args spinFrame lastLine timer]. rewrite Htty. cbn [negb].
    assert (Hfix : fst (remainSegment chalk getNiceRemainingTime e a1) = a1)
      by (unfold a1; rewrite remainSegment_again; reflexivity).
    rewrite composeLine_split, Hfix. cbv beta iota zeta.
    rewrite Hline, Hq. reflexivity. }
  rewrite H3, H2, H1. cbn [fst snd lastLine].
  split; [reflexivity|]. split; [reflexivity|]. split; [reflexivity|].
  unfold p1. destruct (quiet a0); cbn [negb andb].
  - rewrite andb_false_r, !app_nil_r. reflexivity.
  - rewrite andb_true_r. destruct (nonempty L1); cbn [write stdout];
      rewrite <- ?app_assoc; reflexivity.
Qed.

End RedrawProperties.

Lemma erase_then_draw_witness :
  let draw := progress.draw plain_chalk sample_pct sample_remain in
  progress.lastLine
    (fst (draw terminal (progress.erase terminal (draw terminal (fresh, silent)))))
  = utf16 "⠙ ⟦                              ⟧ 0%".
Proof.
  destruct (erase_then_draw plain_chalk sample_pct sample_remain terminal
              fresh silent (progress.startArgs terminal None) eq_refl eq_refl)
    as (_ & _ & H & _).
  etransitivity; [exact H|]. vm_compute. reflexivity.
Defined.

(** C7 as stated fails: after [erase] and [draw] the line shows the next
    spinner frame, not the one it showed before. *)
Lemma erase_then_draw_counterexample :
  let draw := progress.draw plain_chalk sample_pct sample_remain in
  let w1 := draw terminal (fresh, silent) in
  let w3 := draw terminal (progress.erase terminal w1) in
  progress.lastLine (fst w1) = utf16 "⠋ ⟦                              ⟧ 0%" /\
  progress.lastLine (fst w3) = utf16 "⠙ ⟦                              ⟧ 0%" /\
  progress.lastLine (fst w3) <> progress.lastLine (fst w1).
Proof. vm_compute. repeat split; discriminate. Qed.

(** * Auto-fit *)








(** How the loop ends. *)
Lemma shrinkLoop_spec (rows : grid) (avail_width : Z) (ws : list Z) :
  match shrinkLoop rows avail_width ws with
  | Fits ws' =>
    rtc (shrinks rows avail_width) ws ws' /\
    measureTableWidth rows ws' <= avail_width
  | GaveUp =>
    exists ws',
      rtc (shrinks rows avail_width) ws ws' /\
      avail_width < measureTableWidth rows ws' /\
      shrinkStep ws' = None
  end.
Proof.
  funelim (shrinkLoop rows avail_width ws).
  - split; [apply rtc_refl|]. apply Z.ltb_ge. assumption.
  - assert (Hstep' : shrinks rows avail_width ws ws')
      by (split; [apply Z.ltb_lt; assumption|assumption]).
    destruct (shrinkLoop rows avail_width ws') as [ws''|].
    + destruct H as [Hr Hm]. split; [eapply rtc_l; eassumption|exact Hm].
    + destruct H as (ws'' & Hr & Hm & Hn). exists ws''.
      split; [eapply rtc_l; eassumption|]. split; assumption.
  - exists ws. split; [apply rtc_refl|]. split; [apply Z.ltb_lt; assumption|assumption].
Qed.

(** ** The width pass *)

Lemma arr_set_lookup_eq (acc : list Z) (i : nat) (v : Z) :
  arr_set 0 acc i v !! i = Some v.
Proof.
  unfold arr_set. destruct (Nat.ltb_spec i (length acc)) as [Hlt|Hge].
  - apply list_lookup_insert_eq, Hlt.
  - rewrite lookup_app_r by lia.
    rewrite lookup_app_r by (rewrite length_replicate; lia).
    rewrite length_replicate.
    replace (i - length acc - (i - length acc))%nat with 0%nat by lia.
    reflexivity.
Qed.

Lemma arr_set_lookup_ne (acc : list Z) (i j : nat) (v n : Z) :
  i <> j -> acc !! j = Some n -> arr_set 0 acc i v !! j = Some n.
Proof.
  intros Hne Hj. unfold arr_set.
  destruct (Nat.ltb_spec i (length acc)) as [Hlt|Hge].
  - rewrite list_lookup_insert_ne by exact Hne. exact Hj.
  - rewrite lookup_app_l by (eapply lookup_lt_Some, Hj). exact Hj.
Qed.

Lemma grows_refl (acc : list Z) : grows acc acc.
Proof. intros j n H. exists n. split; [exact H|lia]. Qed.

Lemma grows_trans (a b c : list Z) : grows a b -> grows b c -> grows a c.
Proof.
  intros Hab Hbc j n H. destruct (Hab j n H) as (n' & H' & Hle).
  destruct (Hbc j n' H') as (n'' & H'' & Hle'). exists n''. split; [exact H''|lia].
Qed.

Lemma grows_step (acc : list Z) (i : nat) (v : Z) :
  grows acc (arr_set 0 acc i (Z.max (arr_get0 acc i) v)).
Proof.
  intros j n H. destruct (Nat.eq_dec i j) as [->|Hne].
  - rewrite arr_set_lookup_eq. eexists. split; [reflexivity|].
    unfold arr_get0. rewrite H. simpl. lia.
  - exists n. split; [apply arr_set_lookup_ne; assumption|lia].
Qed.

Section ColumnMax.

Variable metric : nat -> cell -> Z.

Let step := fun (acc : list Z) (col : cell) (idy : nat) =>
  arr_set 0 acc idy (Z.max (arr_get0 acc idy) (metric idy col)).

Lemma row_pass_grows (cols : list cell) (i : nat) (acc : list Z) :
  grows acc (forEach_from step i cols acc).
Proof.
  revert i acc; induction cols as [|c cols IH]; intros i acc; simpl.
  - apply grows_refl.
  - eapply grows_trans; [apply grows_step|apply IH].
Qed.

Lemma row_pass_covers (cols : list cell) (i : nat) (acc : list Z) (j : nat) (col : cell) :
  cols !! j = Some col ->
  exists n, forEach_from step i cols acc !! (i + j)%nat = Some n /\ metric (i + j) col <= n.
Proof.
  revert i acc j; induction cols as [|c cols IH]; intros i acc j; [discriminate|].
  destruct j as [|j]; simpl.
  - intros [= ->]. rewrite Nat.add_0_r.
    destruct (row_pass_grows cols (S i) (step acc col i) i
                (Z.max (arr_get0 acc i) (metric i col))) as (n' & Hn' & Hle).
    { apply arr_set_lookup_eq. }
    exists n'. split; [exact Hn'|lia].
  - intros Hj. replace (i + S j)%nat with (S i + j)%nat by lia.
    apply IH, Hj.
Qed.

Lemma rows_pass_grows (rows : grid) (i : nat) (acc : list Z) :
  grows acc
    (forEach_from (fun acc cols (_ : nat) => forEach step cols acc) i rows acc).
Proof.
  revert i acc; induction rows as [|r rows IH]; intros i acc; simpl.
  - apply grows_refl.
  - eapply grows_trans; [apply row_pass_grows|apply IH].
Qed.

(** Every cell is covered by the width kept for its column. *)
Lemma columnMax_covers (rows : grid) (cols : list cell) (idy : nat) (col : cell) :
  cols ∈ rows -> cols !! idy = Some col ->
  exists n, columnMax metric rows !! idy = Some n /\ metric idy col <= n.
Proof.
  unfold columnMax. unfold forEach at 1. generalize 0%nat. generalize (@nil Z).
  induction rows as [|r rows IH]; intros acc i Hin Hcol; [inversion Hin|].
  simpl. apply elem_of_cons in Hin as [->|Hin].
  - destruct (row_pass_covers r 0 acc idy col Hcol) as (n & Hn & Hle).
    destruct (rows_pass_grows rows (S i) (forEach step r acc) idy n Hn)
      as (n' & Hn' & Hle').
    exists n'. split; [exact Hn'|]. simpl in Hle. lia.
  - apply IH; assumption.
Qed.

End ColumnMax.

(** Two width passes agree when their metrics agree cell by cell. *)
Lemma row_pass_ext (f g : nat -> cell -> Z) (h : nat -> cell -> cell)
    (cols : list cell) (i : nat) (acc : list Z) :
  (forall j col, cols !! j = Some col ->
     f (i + j)%nat (h (i + j)%nat col) = g (i + j)%nat col) ->
  forEach_from (fun acc col idy => arr_set 0 acc idy (Z.max (arr_get0 acc idy) (f idy col)))
    i (imap (fun j => h (i + j)%nat) cols) acc
  = forEach_from (fun acc col idy => arr_set 0 acc idy (Z.max (arr_get0 acc idy) (g idy col)))
    i cols acc.
Proof.
  revert i acc; induction cols as [|c cols IH]; intros i acc Hfg; [reflexivity|].
  rewrite imap_cons. cbn [forEach_from].
  pose proof (Hfg 0%nat c eq_refl) as H0. rewrite Nat.add_0_r in *. rewrite H0.
  rewrite <- (IH (S i)).
  - f_equal. apply imap_ext. intros j x _. simpl. f_equal. lia.
  - intros j col Hj. specialize (Hfg (S j) col Hj).
    replace (S i + j)%nat with (i + S j)%nat by lia. exact Hfg.
Qed.

Lemma columnMax_ext (f g : nat -> cell -> Z) (h : nat -> cell -> cell) (rows : grid) :
  (forall cols idy col, cols ∈ rows -> cols !! idy = Some col ->
     f idy (h idy col) = g idy col) ->
  columnMax f (imap h <$> rows) = columnMax g rows.
Proof.
  unfold columnMax. unfold forEach at 1 3. generalize 0%nat. generalize (@nil Z).
  induction rows as [|r rows IH]; intros acc i Hfg; [reflexivity|].
  cbn [fmap list_fmap forEach_from].
  change (list_fmap _ _ (imap h) rows) with (imap h <$> rows).
  rewrite IH by (intros cols idy col Hin; apply Hfg, list_elem_of_further, Hin).
  f_equal. unfold forEach.
  apply (row_pass_ext f g h r 0 acc).
  intros j col Hj. simpl. apply (Hfg r); [apply list_elem_of_here|exact Hj].
Qed.

(** ** Pruning plain cells *)






(** ** The working widths while the loop runs *)









(** With one column less the loop gives up and nothing is truncated: the
    table is rendered 7 columns wide in 4 available columns. *)
Example autofit_gives_up :
  let e := {| isTTY := true; columns := 4; now := 0 |} in
  let rows := [[utf16 "abc"]] in
  shrinkLoop rows 4 (naturalWidths rows) = GaveUp /\
  autoFitTableRows e rows [] = rows /\
  tableWidth (autoFitTableRows e rows []) = 7.
Proof. vm_compute. repeat split; reflexivity. Qed.

(** Full-width characters are cut by code units, not by columns: four
    ideographs (8 columns) in 8 available columns are given the working
    width 4, cut to three ideographs and the ellipsis, and the table is
    rendered 11 columns wide. *)
Example autofit_wide_cells :
  let e := {| isTTY := true; columns := 8; now := 0 |} in
  let rows := [[utf16 "漢字漢字"]] in
  shrinkLoop rows 8 (naturalWidths rows) = Fits [4] /\
  autoFitTableRows e rows [] = [[utf16 "漢字漢…"]] /\
  tableWidth (autoFitTableRows e rows []) = 11.
Proof. vm_compute. repeat split; reflexivity. Qed.

(** Without any row there is no header to take off: [table] throws and
    the array stays empty. *)
Example table_no_rows :
  table plain_chalk terminal [] None = Threw "TypeError".
Proof. reflexivity. Qed.

(** The bar of the README's ASCII example, a little over 55 percent. *)
Example ascii_bar :
  progress.barBody
    (progress.mergeHashInto
       (progress.startArgs terminal
          (Some (progress.with_unicode progress.no_options false)))
       (progress.with_amount progress.no_options (5567 # 10000)))
  = utf16 "################:             ".
Proof. vm_compute. reflexivity. Qed.

(** * Further properties: spaces, padding, escape sequences *)

Lemma count_width_nonneg (skip : bool) (s : jsstring) : 0 <= count_width skip s.
Proof.
  revert skip; induction s as [|c s IH]; intros skip; simpl; [lia|].
  destruct skip; [apply IH|].
  destruct (is_control _); [apply IH|].
  destruct (is_combining _); [apply IH|].
  specialize (IH (0xFFFF <? codePointAt c s)%N).
  destruct (isFullwidthCodePoint _); lia.
Qed.

Lemma stringWidth_nonneg (s : jsstring) : 0 <= stringWidth s.
Proof. apply count_width_nonneg. Qed.

Lemma space_nonpos (n : Z) : n <= 0 -> space n = [].
Proof.
  intros H. unfold space, repeat. destruct (Z.leb_spec n 0); [reflexivity|lia].
Qed.

Lemma space_width (n : Z) : Z.of_nat (length (space n)) = Z.max 0 n.
Proof.
  destruct (Z.le_gt_cases n 0) as [H|H].
  - rewrite (space_nonpos n H). simpl. lia.
  - rewrite space_length by lia. lia.
Qed.


(** X2.  [pad] never shortens or changes its text: the text comes first
    and only spaces follow; a text already as wide as asked comes back
    as it is; and plain text comes back exactly as wide as asked when it
    was narrower. *)
Theorem pad_plain (text : jsstring) (w : Z) :
  (exists k, pad text w = text ++ replicate k SP) /\
  (w <= stringWidth text -> pad text w = text) /\
  (simple text = true -> stringWidth (pad text w) = Z.max w (stringWidth text)).
Proof.
  unfold pad. split; [|split].
  - exists (Z.to_nat (w - stringWidth text)). f_equal.
    unfold space, repeat. destruct (Z.leb_spec (w - stringWidth text) 0) as [H0|Hpos].
    + replace (Z.to_nat (w - stringWidth text)) with 0%nat by lia. reflexivity.
    + induction (Z.to_nat _) as [|k IH]; [reflexivity|]. simpl. rewrite IH. reflexivity.
  - intros Hw. rewrite space_nonpos by lia. apply app_nil_r.
  - intros Hs.
    rewrite stringWidth_simple by (rewrite simple_app, Hs, space_simple; reflexivity).
    rewrite length_app, Nat2Z.inj_add, <- (stringWidth_simple text Hs).
    destruct (Z.le_gt_cases (stringWidth text) w) as [Hle|Hgt].
    + rewrite space_length by lia. lia.
    + rewrite space_nonpos by lia. simpl. lia.
Qed.

Lemma pad_plain_witness : stringWidth (pad (utf16 "Al") 6) = Z.max 6 (stringWidth (utf16 "Al")).
Proof.
  exact (proj2 (proj2 (pad_plain (utf16 "Al") 6)) eq_refl).
Defined.

(** ** [stripColor] *)

Lemma remove_all_sublist (re : regex) (skip : nat) (s : jsstring) :
  sublist (remove_all re skip s) s.
Proof.
  revert skip; induction s as [|c s IH]; intros skip; simpl; [constructor|].
  destruct skip as [|n]; [|apply sublist_cons, IH].
  destruct (match_length re (c :: s)) as [[|n]|].
  - apply sublist_skip, IH.
  - apply sublist_cons, IH.
  - apply sublist_skip, IH.
Qed.

Lemma remove_all_no_intro (s : jsstring) :
  forallb (fun c => negb (is_intro c)) s = true -> remove_all ansiPattern 0 s = s.
Proof.
  induction s as [|c s IH]; [reflexivity|]. cbn [forallb remove_all].
  intros H. apply andb_true_iff in H as [Hc Hs]. apply negb_true_iff in Hc.
  rewrite (match_length_not_intro c s Hc), (IH Hs). reflexivity.
Qed.

(** X3.  [stripColor] only ever takes characters out: what it returns
    is the text with some stretches removed, in the same order, so never
    longer; and a text without the characters ESC and CSI comes back
    unchanged. *)
Theorem stripColor_removes_only (text : jsstring) :
  sublist (stripColor text) text /\
  (length (stripColor text) <= length text)%nat /\
  (forallb (fun c => negb (is_intro c)) text = true -> stripColor text = text).
Proof.
  split; [apply remove_all_sublist|]. split.
  - apply sublist_length, remove_all_sublist.
  - apply remove_all_no_intro.
Qed.

Lemma stripColor_removes_only_witness : stripColor (BEL :: utf16 "ab") = BEL :: utf16 "ab".
Proof.
  exact (proj2 (proj2 (stripColor_removes_only (BEL :: utf16 "ab"))) eq_refl).
Defined.

(** A match whose continuation fails on every suffix fails. *)
Lemma rmatch_none (r : regex) (s : jsstring) (k : jsstring -> option jsstring) :
  (forall t, t `suffix_of` s -> k t = None) -> rmatch r s k = None.
Proof.
  revert s k; induction r as [|p|a IHa b IHb|a IHa b IHb|a IHa]; intros s k H;
    cbn [rmatch].
  - apply H. reflexivity.
  - destruct s as [|c s]; [reflexivity|].
    destruct (p c); [|reflexivity]. apply H. apply suffix_cons_r. reflexivity.
  - apply IHa. intros t Ht. apply IHb. intros u Hu. apply H. etrans; eassumption.
  - rewrite (IHa s k H). apply IHb, H.
  - match goal with
    | |- ?loop (length s) s = None =>
      enough (Hloop : forall n t, t `suffix_of` s -> loop n t = None)
        by (apply Hloop; reflexivity)
    end.
    induction n as [|n IHn]; intros t Ht; [apply H, Ht|].
    rewrite IHa; [apply H, Ht|].
    intros u Hu. destruct (length u <? length t)%nat; [|reflexivity].
    apply IHn. etrans; eassumption.
Qed.

Lemma is_digit_not_c0 (d : char) : is_digit d = true -> one_of "[]()#;?" d = false.
Proof.
  unfold is_digit, in_range. intros H. apply andb_true_iff in H as [H1 H2].
  apply N.leb_le in H1, H2. unfold one_of. cbn [map list_ascii_of_string existsb].
  repeat (rewrite (proj2 (N.eqb_neq d _)) by (cbn; lia); cbn [orb]).
  reflexivity.
Qed.

Lemma ansi_alt1_none (s : jsstring) (k : jsstring -> option jsstring) :
  BEL ∉ s ->
  rmatch (Seq (Opt (Seq (Star (Cls is_alnum))
                        (Star (Seq semi (Star (Cls is_osc_param))))))
              (Cls (N.eqb BEL))) s k = None.
Proof.
  intros Hbel. cbn [rmatch]. apply rmatch_none. intros t Ht.
  destruct t as [|c t]; [reflexivity|]. cbn [rmatch].
  destruct (N.eqb_spec BEL c) as [<-|_]; [|reflexivity].
  exfalso. apply Hbel. destruct Ht as [pre ->].
  apply elem_of_app. right. apply list_elem_of_here.
Qed.

Lemma rmatch_seq (a b : regex) (s : jsstring) (k : jsstring -> option jsstring) :
  rmatch (Seq a b) s k = rmatch a s (fun s' => rmatch b s' k).
Proof. reflexivity. Qed.

Lemma rmatch_opt (r : regex) (s : jsstring) (k : jsstring -> option jsstring) :
  rmatch (Opt r) s k
  = match rmatch r s k with Some x => Some x | None => k s end.
Proof. reflexivity. Qed.

Lemma rmatch_cls (p : char -> bool) (c : char) (s : jsstring)
    (k : jsstring -> option jsstring) :
  rmatch (Cls p) (c :: s) k = if p c then k s else None.
Proof. reflexivity. Qed.

(** Up to four digits before a character that is no digit are taken
    whole, when what follows them is accepted. *)
Lemma digits_1_4_greedy (ds : jsstring) (c : char) (rest : jsstring)
    (k : jsstring -> option jsstring) (x : jsstring) :
  sgr_code ds = true -> is_digit c = false ->
  k (c :: rest) = Some x ->
  rmatch digits_1_4 (ds ++ c :: rest) k = Some x.
Proof.
  unfold sgr_code. intros H Hc Hk.
  apply andb_true_iff in H as [H Hhi]. apply andb_true_iff in H as [Hd Hlo].
  apply Nat.leb_le in Hlo, Hhi.
  unfold digits_1_4, digit.
  destruct ds as [|d1 [|d2 [|d3 [|d4 [|d5 ds]]]]]; simpl in Hlo, Hhi; try lia;
    cbn [forallb] in Hd;
    repeat match type of Hd with
           | _ && _ = true => apply andb_true_iff in Hd as [? Hd]
           end;
    cbn [app];
    repeat (rewrite ?rmatch_seq, ?rmatch_opt, ?rmatch_cls;
            repeat match goal with
                   | Hx : is_digit ?d = true |- context [is_digit ?d] => rewrite Hx
                   end;
            rewrite ?Hc, ?Hk);
    reflexivity.
Qed.

Lemma star_stops (p : char -> bool) (r : regex) (c : char) (s : jsstring)
    (k : jsstring -> option jsstring) :
  p c = false ->
  rmatch (Star (Seq (Cls p) r)) (c :: s) k = k (c :: s).
Proof.
  intros Hp. cbn [rmatch length]. rewrite Hp. reflexivity.
Qed.

Lemma star_class_one (p : char -> bool) (c d : char) (s : jsstring)
    (k : jsstring -> option jsstring) :
  p c = true -> p d = false ->
  rmatch (Star (Cls p)) (c :: d :: s) k
  = match k (d :: s) with Some x => Some x | None => k (c :: d :: s) end.
Proof.
  intros Hc Hd. cbn [rmatch length]. rewrite Hc, Hd.
  replace (S (length s) <? S (S (length s)))%nat with true
    by (symmetry; apply Nat.ltb_lt; lia).
  reflexivity.
Qed.

Lemma digit_not_bel (ds : jsstring) : forallb is_digit ds = true -> BEL ∉ ds.
Proof.
  induction ds as [|d ds IH]; [intros _ H; inversion H|].
  cbn [forallb]. intros H. apply andb_true_iff in H as [Hd Hds].
  intros Hin. apply elem_of_cons in Hin as [<-|Hin]; [discriminate Hd|].
  exact (IH Hds Hin).
Qed.

Lemma rmatch_alt (a b : regex) (s : jsstring) (k : jsstring -> option jsstring) :
  rmatch (Alt a b) s k
  = match rmatch a s k with Some x => Some x | None => rmatch b s k end.
Proof. reflexivity. Qed.

Lemma ansi_alt2_sgr (ds rest : jsstring) :
  sgr_code ds = true ->
  rmatch (Seq (Opt (Seq digits_1_4 (Star (Seq semi digits_0_4)))) (Cls is_final))
    (ds ++ 0x6D%N :: rest) Some = Some rest.
Proof.
  intros Hcode. rewrite rmatch_seq, rmatch_opt, rmatch_seq.
  rewrite (digits_1_4_greedy ds 0x6D%N rest _ rest Hcode eq_refl); [reflexivity|].
  unfold semi. rewrite star_stops by reflexivity. reflexivity.
Qed.

(** The pattern takes a colour sequence whole when no BEL follows. *)
Lemma ansiPattern_sgr (ds rest : jsstring) :
  sgr_code ds = true -> BEL ∉ rest ->
  rmatch ansiPattern (sgr ds ++ rest) Some = Some rest.
Proof.
  intros Hcode Hbel. pose proof Hcode as Hcode'. unfold sgr_code in Hcode'.
  apply andb_true_iff in Hcode' as [H _]. apply andb_true_iff in H as [Hd Hlo].
  apply Nat.leb_le in Hlo.
  assert (Hnobel : BEL ∉ ds ++ 0x6D%N :: rest).
  { intros Hin. apply elem_of_app in Hin as [Hin|Hin]; [exact (digit_not_bel ds Hd Hin)|].
    apply elem_of_cons in Hin as [Hin|Hin]; [discriminate Hin|exact (Hbel Hin)]. }
  pose proof (ansi_alt2_sgr ds rest Hcode) as H2.
  pose proof (fun k => ansi_alt1_none (ds ++ 0x6D%N :: rest) k Hnobel) as H1.
  unfold sgr, ansiPattern. cbn [app]. rewrite <- app_assoc. cbn [app].
  set (alt1 := Seq (Opt (Seq (Star (Cls is_alnum)) _)) _) in *.
  set (alt2 := Seq (Opt (Seq digits_1_4 _)) _) in *.
  destruct ds as [|d1 ds]; [simpl in Hlo; lia|].
  cbn [forallb] in Hd. apply andb_true_iff in Hd as [Hd1 Hds].
  rewrite rmatch_seq, rmatch_cls. change (is_intro ESC) with true. cbv iota.
  rewrite rmatch_seq. cbn [app] in *.
  rewrite (star_class_one _ 0x5B%N d1 _ _ eq_refl (is_digit_not_c0 d1 Hd1)).
  cbv beta. unfold jsstring, char in *. rewrite rmatch_alt, H1, H2. reflexivity.
Qed.

Lemma match_length_sgr (ds rest : jsstring) :
  sgr_code ds = true -> BEL ∉ rest ->
  match_length ansiPattern (sgr ds ++ rest) = Some (S (S (S (length ds)))).
Proof.
  intros Hcode Hbel. unfold match_length. rewrite (ansiPattern_sgr ds rest Hcode Hbel).
  f_equal. unfold sgr. cbn [app length].
  rewrite !length_app. cbn [length]. lia.
Qed.

Lemma remove_all_skip (re : regex) (p s : jsstring) :
  remove_all re (length p) (p ++ s) = remove_all re 0 s.
Proof.
  induction p as [|c p IH]; [reflexivity|]. cbn [length app remove_all]. exact IH.
Qed.

Lemma remove_all_sgr (ds rest : jsstring) :
  sgr_code ds = true -> BEL ∉ rest ->
  remove_all ansiPattern 0 (sgr ds ++ rest) = remove_all ansiPattern 0 rest.
Proof.
  intros Hcode Hbel. pose proof (match_length_sgr ds rest Hcode Hbel) as Hm.
  unfold sgr in *. cbn [app remove_all] in *. unfold jsstring, char in *. rewrite Hm.
  replace (S (length ds)) with (length (ds ++ [0x6D%N]))
    by (rewrite length_app; cbn [length]; lia).
  exact (remove_all_skip ansiPattern (ds ++ [0x6D%N]) rest).
Qed.

Lemma remove_all_simple_app (text rest : jsstring) :
  simple text = true ->
  remove_all ansiPattern 0 (text ++ rest) = text ++ remove_all ansiPattern 0 rest.
Proof.
  unfold simple. induction text as [|c s IH]; [reflexivity|].
  cbn [forallb remove_all app]. intros H. apply andb_true_iff in H as [Hc Hs].
  rewrite (match_length_not_intro c _ (simple_char_not_intro c Hc)).
  rewrite (IH Hs). reflexivity.
Qed.

Lemma simple_not_bel (s : jsstring) : simple s = true -> BEL ∉ s.
Proof.
  unfold simple. induction s as [|c s IH]; [intros _ H; inversion H|].
  cbn [forallb]. intros H. apply andb_true_iff in H as [Hc Hs].
  intros Hin. apply elem_of_cons in Hin as [<-|Hin]; [discriminate Hc|].
  exact (IH Hs Hin).
Qed.

Lemma sgr_not_bel (ds : jsstring) : sgr_code ds = true -> BEL ∉ sgr ds.
Proof.
  unfold sgr_code. intros H.
  apply andb_true_iff in H as [H _]. apply andb_true_iff in H as [Hd _].
  unfold sgr. intros Hin.
  apply elem_of_cons in Hin as [Hin|Hin]; [discriminate Hin|].
  apply elem_of_cons in Hin as [Hin|Hin]; [discriminate Hin|].
  apply elem_of_app in Hin as [Hin|Hin]; [exact (digit_not_bel ds Hd Hin)|].
  apply elem_of_cons in Hin as [Hin|Hin]; [discriminate Hin|inversion Hin].
Qed.

(** X4.  A colour sequence, ESC [ one to four digits m, in front of a text
    that holds no BEL is taken out by [stripColor] and counts for nothing
    in the width of the text. *)
Theorem stripColor_sgr (ds rest : jsstring) :
  sgr_code ds = true -> BEL ∉ rest ->
  stripColor (sgr ds ++ rest) = stripColor rest /\
  stringWidth (sgr ds ++ rest) = stringWidth rest.
Proof.
  intros Hcode Hbel. unfold stringWidth, stripColor.
  rewrite (remove_all_sgr ds rest Hcode Hbel). split; reflexivity.
Qed.

Lemma stripColor_sgr_witness :
  stripColor (sgr (utf16 "31") ++ utf16 "red") = stripColor (utf16 "red") /\
  stringWidth (sgr (utf16 "31") ++ utf16 "red") = stringWidth (utf16 "red").
Proof.
  apply (stripColor_sgr (utf16 "31") (utf16 "red")).
  - reflexivity.
  - intros H. vm_compute in H. repeat (apply elem_of_cons in H as [H|H]; [discriminate H|]).
    inversion H.
Defined.

(** With a BEL further on, the first alternative of the pattern takes
    the colour sequence and the text up to the BEL as one match. *)
Example stripColor_bel_swallows :
  stripColor (sgr (utf16 "31") ++ utf16 "ab" ++ [BEL] ++ utf16 "cd") = utf16 "cd".
Proof. vm_compute. reflexivity. Qed.



(** * Centred text *)

Lemma simple_char_not_LF (c : char) : simple_char c = true -> N.eqb LF c = false.
Proof.
  intros H. destruct (N.eqb_spec LF c) as [<-|_]; [discriminate H|reflexivity].
Qed.

Lemma simple_no_newline (s : jsstring) : simple s = true -> has_newline s = false.
Proof.
  unfold simple, has_newline. induction s as [|c s IH]; [reflexivity|].
  cbn [forallb existsb]. intros H. apply andb_true_iff in H as [Hc Hs].
  rewrite (simple_char_not_LF c Hc), (IH Hs). reflexivity.
Qed.

Lemma split_lines_one (s : jsstring) : has_newline s = false -> split_lines s = [s].
Proof.
  unfold has_newline. induction s as [|c s IH]; [reflexivity|].
  cbn [existsb split_lines]. intros H. apply orb_false_iff in H as [Hc Hs].
  rewrite N.eqb_sym, Hc, (IH Hs). reflexivity.
Qed.

Lemma widestLine_one (s : jsstring) : has_newline s = false -> widestLine s = stringWidth s.
Proof.
  intros H. unfold widestLine. rewrite (split_lines_one s H). simpl.
  pose proof (stringWidth_nonneg s). lia.
Qed.

(** A plain text between two margins is as wide as the three together. *)
Lemma margins_width (l r : Z) (t : jsstring) :
  simple t = true ->
  simple (space l ++ t ++ space r) = true /\
  stringWidth (space l ++ t ++ space r)
  = Z.max 0 l + Z.of_nat (length t) + Z.max 0 r.
Proof.
  intros Ht.
  assert (Hs : simple (space l ++ t ++ space r) = true)
    by (rewrite !simple_app, Ht, !space_simple; reflexivity).
  split; [exact Hs|]. rewrite (stringWidth_simple _ Hs), !length_app.
  rewrite !Nat2Z.inj_add, !space_width. lia.
Qed.

(** What [centerLine] makes of a plain text. *)
Lemma centerLine_simple (t : jsstring) (w : Z) :
  simple t = true ->
  let n := Z.of_nat (length t) in
  centerLine t w = space ((w - n) / 2) ++ t ++ space (w - n - Z.max 0 ((w - n) / 2)).
Proof.
  intros Ht n. unfold centerLine. rewrite (stringWidth_simple t Ht). fold n.
  rewrite <- app_assoc. do 2 f_equal.
  assert (Hs : simple (space ((w - n) / 2) ++ t) = true)
    by (rewrite simple_app, Ht, space_simple; reflexivity).
  rewrite (stringWidth_simple _ Hs), length_app, Nat2Z.inj_add, space_width.
  fold n. f_equal. lia.
Qed.

Lemma centerOne_simple (text : jsstring) (w : Z) :
  simple (trim text) = true ->
  let t := trim text in
  let n := Z.of_nat (length t) in
  centerOne text w
  = if w =? 0 then t
    else space ((w - n) / 2) ++ t ++ space (w - n - Z.max 0 ((w - n) / 2)).
Proof.
  intros Ht t n. unfold centerOne. fold t.
  destruct (Z.eqb_spec w 0) as [->|Hw].
  - rewrite (widestLine_one t (simple_no_newline t Ht)), (centerLine_simple t _ Ht).
    rewrite (stringWidth_simple t Ht). fold n.
    replace (n - n) with 0 by lia. change (0 / 2) with 0.
    change (space 0) with (@nil char). cbn [app]. apply app_nil_r.
  - apply (centerLine_simple t w Ht).
Qed.



(** ** Blocks of several lines *)

Lemma split_lines_cons (x r : jsstring) :
  has_newline x = false -> split_lines (x ++ LF :: r) = x :: split_lines r.
Proof.
  unfold has_newline. induction x as [|c x IH]; [reflexivity|].
  cbn [existsb app split_lines]. intros H. apply orb_false_iff in H as [Hc Hx].
  rewrite N.eqb_sym, Hc, (IH Hx). reflexivity.
Qed.

Lemma split_lines_join (ls : list jsstring) :
  ls <> [] -> Forall (fun l => has_newline l = false) ls ->
  split_lines (join [LF] ls) = ls.
Proof.
  induction ls as [|x ls IH]; [congruence|]. intros _ H.
  apply Forall_cons in H as [Hx Hls].
  destruct ls as [|y ls]; [exact (split_lines_one x Hx)|].
  change (join [LF] (x :: y :: ls)) with (x ++ LF :: join [LF] (y :: ls)).
  rewrite (split_lines_cons x _ Hx), IH; [reflexivity|discriminate|exact Hls].
Qed.

Lemma split_lines_plain (s : jsstring) :
  plain_text s = true -> Forall (fun l => simple l = true) (split_lines s).
Proof.
  unfold plain_text. induction s as [|c s IH]; [repeat constructor|].
  cbn [forallb split_lines]. intros H. apply andb_true_iff in H as [Hc Hs].
  specialize (IH Hs). destruct (N.eqb_spec c LF) as [->|Hne].
  - constructor; [reflexivity|exact IH].
  - rewrite orb_false_r in Hc.
    destruct (split_lines s) as [|l ls]; [repeat constructor; simpl; rewrite Hc; reflexivity|].
    apply Forall_cons in IH as [Hl Hls]. constructor; [|exact Hls].
    unfold simple in *. cbn [forallb]. rewrite Hc, Hl. reflexivity.
Qed.

Lemma fold_max_le (f : jsstring -> Z) (ls : list jsstring) (m : Z) :
  m <= fold_left (fun m line => Z.max m (f line)) ls m /\
  Forall (fun l => f l <= fold_left (fun m line => Z.max m (f line)) ls m) ls.
Proof.
  revert m; induction ls as [|x ls IH]; intros m; simpl; [split; [lia|constructor]|].
  destruct (IH (Z.max m (f x))) as [Hm Hall]. split; [lia|].
  constructor; [lia|exact Hall].
Qed.

Lemma widestLine_bound (s : jsstring) :
  Forall (fun l => stringWidth l <= widestLine s) (split_lines s).
Proof. apply (fold_max_le stringWidth). Qed.

Lemma forallb_trim_start (p : char -> bool) (s : jsstring) :
  forallb p s = true -> forallb p (trim_start s) = true.
Proof.
  induction s as [|c s IH]; [reflexivity|]. cbn [forallb trim_start].
  intros H. destruct (is_space c); [|exact H].
  apply andb_true_iff in H as [_ Hs]. exact (IH Hs).
Qed.

Lemma forallb_rev (p : char -> bool) (s : jsstring) :
  forallb p (rev s) = forallb p s.
Proof.
  induction s as [|c s IH]; [reflexivity|].
  cbn [rev forallb]. rewrite forallb_app, IH. cbn [forallb].
  rewrite andb_true_r. apply andb_comm.
Qed.

Lemma forallb_trim (p : char -> bool) (s : jsstring) :
  forallb p s = true -> forallb p (trim s) = true.
Proof.
  intros H. unfold trim. rewrite forallb_rev. apply forallb_trim_start.
  rewrite forallb_rev. apply forallb_trim_start, H.
Qed.

Lemma trim_start_length (s : jsstring) : (length (trim_start s) <= length s)%nat.
Proof.
  induction s as [|c s IH]; [reflexivity|]. cbn [trim_start].
  destruct (is_space c); simpl; lia.
Qed.

Lemma trim_length (s : jsstring) : (length (trim s) <= length s)%nat.
Proof.
  unfold trim. rewrite length_rev.
  pose proof (trim_start_length (rev (trim_start s))) as H1.
  pose proof (trim_start_length s) as H2. rewrite length_rev in H1. lia.
Qed.

(** A plain line centred in a width it fits in takes that width. *)
Lemma centerOne_width (line : jsstring) (W : Z) :
  simple line = true -> stringWidth line <= W ->
  simple (centerOne line W) = true /\ stringWidth (centerOne line W) = W.
Proof.
  intros Hl Hfit.
  assert (Ht : simple (trim line) = true) by exact (forallb_trim _ line Hl).
  rewrite (stringWidth_simple line Hl) in Hfit. pose proof (trim_length line) as Hlen.
  rewrite (centerOne_simple line W Ht).
  destruct (Z.eqb_spec W 0) as [->|HW].
  - split; [exact Ht|]. rewrite (stringWidth_simple _ Ht). lia.
  - destruct (margins_width ((W - Z.of_nat (length (trim line))) / 2)
                (W - Z.of_nat (length (trim line))
                 - Z.max 0 ((W - Z.of_nat (length (trim line))) / 2))
                (trim line) Ht) as [Hs Hw].
    split; [exact Hs|]. rewrite Hw.
    pose proof (Z.div_mod (W - Z.of_nat (length (trim line))) 2 ltac:(lia)).
    pose proof (Z.mod_pos_bound (W - Z.of_nat (length (trim line))) 2 ltac:(lia)).
    lia.
Qed.

(** X7.  [center] on a block of plain lines, with no width or one that no
    line exceeds: the result has as many lines as the trimmed text, and
    every one of them is exactly as wide as the width settled on, so the
    block comes out rectangular. *)
Theorem center_block (text : jsstring) (w : Z) :
  plain_text text = true ->
  w = 0 \/ widestLine (trim text) <= w ->
  let W := if w =? 0 then widestLine (trim text) else w in
  length (split_lines (center text w)) = length (split_lines (trim text)) /\
  Forall (fun line => stringWidth line = W) (split_lines (center text w)).
Proof.
  intros Hplain Hw W.
  assert (Ht : plain_text (trim text) = true) by exact (forallb_trim _ text Hplain).
  pose proof (split_lines_plain _ Ht) as Hsimple.
  pose proof (widestLine_bound (trim text)) as Hbound.
  assert (HW : widestLine (trim text) <= W).
  { unfold W. destruct (Z.eqb_spec w 0); lia. }
  assert (Hall : Forall (fun line => simple (centerOne line W) = true /\
                                     stringWidth (centerOne line W) = W)
                   (split_lines (trim text))).
  { rewrite Forall_forall in Hsimple, Hbound. apply Forall_forall. intros l Hl.
    apply centerOne_width; [exact (Hsimple l Hl)|]. specialize (Hbound l Hl). lia. }
  unfold center. fold W. destruct (has_newline (trim text)) eqn:Hnl.
  - rewrite split_lines_join.
    + rewrite length_fmap. split; [reflexivity|].
      apply Forall_fmap. eapply Forall_impl; [exact Hall|]. intros l [_ H]. exact H.
    + destruct (split_lines (trim text)) eqn:E; [|discriminate].
      destruct (trim text) as [|c s]; [discriminate Hnl|].
      cbn [split_lines] in E. destruct (N.eqb c LF); [discriminate E|].
      destruct (split_lines s); discriminate E.
    + apply Forall_fmap. eapply Forall_impl; [exact Hall|]. intros l [H _].
      exact (simple_no_newline _ H).
  - rewrite (split_lines_one _ Hnl) in *.
    apply Forall_cons in Hsimple as [Hs _]. apply Forall_cons in Hbound as [Hb _].
    rewrite (stringWidth_simple _ Hs) in Hb.
    rewrite (centerLine_simple _ W Hs).
    destruct (margins_width ((W - Z.of_nat (length (trim text))) / 2)
                (W - Z.of_nat (length (trim text))
                 - Z.max 0 ((W - Z.of_nat (length (trim text))) / 2))
                (trim text) Hs) as [Hs' Hw'].
    rewrite (split_lines_one _ (simple_no_newline _ Hs')).
    split; [reflexivity|]. constructor; [|constructor]. rewrite Hw'.
    pose proof (Z.div_mod (W - Z.of_nat (length (trim text))) 2 ltac:(lia)).
    pose proof (Z.mod_pos_bound (W - Z.of_nat (length (trim text))) 2 ltac:(lia)).
    lia.
Qed.

Lemma center_block_witness :
  plain_text (two_lines) = true /\
  (0 = 0 \/ widestLine (trim (two_lines)) <= 0) /\
  let W := if 0 =? 0 then widestLine (trim (two_lines)) else 0 in
  length (split_lines (center (two_lines) 0)) = length (split_lines (trim (two_lines))) /\
  Forall (fun line => stringWidth line = W) (split_lines (center (two_lines) 0)).
Proof.
  split; [reflexivity|]. split; [left; reflexivity|].
  apply (center_block (two_lines) 0); [reflexivity|left; reflexivity].
Defined.

(** * Boxes *)




Section BoxProperties.

Variable chalk : string -> jsstring -> jsstring.
Variable wrap : jsstring -> Z -> jsstring.


End BoxProperties.


(** * Tables that fit, and the shape of a table *)

Lemma imap_same (cols : list cell) : imap (fun _ col => col) cols = cols.
Proof.
  change (imap (fun _ col => col) cols) with (imap (const (fun col : cell => col)) cols).
  rewrite imap_const. apply list_fmap_id.
Qed.

Lemma imap_same_rows (rows : grid) : imap (fun _ (col : cell) => col) <$> rows = rows.
Proof.
  induction rows as [|r rows IH]; [reflexivity|].
  cbn [fmap list_fmap]. rewrite imap_same. f_equal. exact IH.
Qed.

(** With the natural widths as working widths, the table is measured as
    wide as [table] draws it. *)
Lemma measure_natural (rows : grid) :
  measureTableWidth rows (naturalWidths rows) = tableWidth rows.
Proof.
  unfold measureTableWidth, tableWidth, widestCols. do 3 f_equal.
  rewrite <- (imap_same_rows rows) at 2. symmetry.
  apply (columnMax_ext (fun _ col => stringWidth col + 2) _ (fun _ col => col)).
  intros cols idy col Hrow Hcol.
  destruct (columnMax_covers (fun _ col => stringWidth col) rows cols idy col Hrow Hcol)
    as (n & Hn & Hle).
  cbv beta in Hle. unfold naturalWidths. rewrite Hn. lia.
Qed.

Lemma pruneCell_natural (rows : grid) (cols : list cell) :
  cols ∈ rows -> imap (pruneCell (naturalWidths rows)) cols = cols.
Proof.
  intros Hrow. rewrite <- (imap_same cols) at 2. apply imap_ext.
  intros idy col Hcol.
  destruct (columnMax_covers (fun _ col => stringWidth col) rows cols idy col Hrow Hcol)
    as (n & Hn & Hle).
  cbv beta in Hle. unfold pruneCell, naturalWidths. rewrite Hn.
  destruct (Z.ltb_spec n (stringWidth col)); [lia|reflexivity].
Qed.

(** X9.  [autoFitTableRows] leaves alone a table that already fits: when
    the table as [table] would draw it is no wider than the room there
    is, no turn of the shrinking loop runs and every cell stays as it
    is, escape sequences and wide characters included. *)
Theorem autofit_fitting_unchanged (e : env) (rows : grid) (indent : jsstring) :
  tableWidth rows <= width e - stringWidth indent * 2 ->
  autoFitTableRows e rows indent = rows.
Proof.
  intros Hfit.
  destruct (autoFitTableRows_cases e rows indent) as [H|(ws & _ & Hloop & ->)];
    [exact H|].
  pose proof (shrinkLoop_spec rows (width e - stringWidth indent * 2)
                (naturalWidths rows)) as Hspec.
  rewrite Hloop in Hspec. destruct Hspec as [Hr _].
  assert (ws = naturalWidths rows) as ->.
  { apply rtc_inv in Hr as [Heq|(ws' & [Hwide _] & _)]; [symmetry; exact Heq|].
    rewrite measure_natural in Hwide. lia. }
  transitivity (id <$> rows); [|apply list_fmap_id]. apply list_fmap_ext.
  intros i cols Hi. apply pruneCell_natural. eapply list_elem_of_lookup_2, Hi.
Qed.

Lemma autofit_fitting_unchanged_witness :
  autoFitTableRows terminal name_age [] = name_age.
Proof.
  apply (autofit_fitting_unchanged terminal name_age []). vm_compute. discriminate.
Defined.

(** ** The shape of a table *)

Section WidthPass.

Variable metric : nat -> cell -> Z.

Let step := fun (acc : list Z) (col : cell) (idy : nat) =>
  arr_set 0 acc idy (Z.max (arr_get0 acc idy) (metric idy col)).





End WidthPass.

Lemma foldr_width_nonneg (ws : list Z) :
  Forall (fun w => 0 <= w) ws -> 0 <= foldr (fun w acc => w + 1 + acc) 0 ws.
Proof. induction 1; simpl; lia. Qed.









Section TableShape.

Variable chalk : string -> jsstring -> jsstring.



End TableShape.


(** * The life of a progress session *)

Lemma untab_no_tab (s : jsstring) : TAB ∉ untab s.
Proof.
  unfold untab. induction s as [|c s IH]; [intros H; inversion H|].
  cbn [flat_map]. intros H. apply elem_of_app in H as [H|H]; [|exact (IH H)].
  destruct (N.eqb_spec c TAB) as [->|Hne].
  - repeat (apply elem_of_cons in H as [H|H]; [discriminate H|]). inversion H.
  - apply elem_of_cons in H as [H|H]; [congruence|inversion H].
Qed.

Lemma once_here (event : string) (p : progress.process) :
  event ∈ progress.listeners (progress.once event p).
Proof. unfold progress.once. cbn. apply elem_of_app. right. apply list_elem_of_here. Qed.

Lemma once_keeps (event event' : string) (p : progress.process) :
  event ∈ progress.listeners p -> event ∈ progress.listeners (progress.once event' p).
Proof. intros H. unfold progress.once. cbn. apply elem_of_app. left. exact H. Qed.

Section SessionProperties.

Import progress.

Variable chalk : string -> jsstring -> jsstring.
Variable cli_pct : Q -> Q -> jsstring.
Variable getNiceRemainingTime : Q -> Q -> Q -> jsstring.

Let start := start chalk cli_pct getNiceRemainingTime.
Let draw := draw chalk cli_pct getNiceRemainingTime.

(** What [start] makes of the overrides, key by key. *)
Lemma startArgs_keys (e : env) (overrides : option options) :
  let o := default no_options overrides in
  let a := startArgs e overrides in
  max a = (if Qeq_bool (default 0%Q (o_max o)) 0 then 1%Q else default 0%Q (o_max o)) /\
  indent a = IndentStr (untab (match default (IndentStr []) (o_indent o) with
                               | IndentNum n => space n
                               | IndentStr s => s
                               end)) /\
  quiet a = default false (o_quiet o) /\
  freq a = default 100 (o_freq o) /\
  (default true (o_color o) = false -> styles a = no_styles).
Proof.
  destruct overrides as [o|]; cbn [default].
  - destruct o as [? om ? ? oi ? oc ou ? ? ? ? ? ? ? ? ? ? ? oq ? ? ?].
    destruct ou as [[|]|], oi as [[n|str]|], oc as [[|]|];
      repeat split; try reflexivity; try discriminate.
  - repeat split; try reflexivity; try discriminate.
Qed.

(** The options as [draw] leaves them differ from the ones it found in
    the cache of the remaining time only. *)
Lemma composeLine_keeps (e : env) (a : args_t) (frame : nat) :
  let a' := fst (composeLine chalk cli_pct getNiceRemainingTime e a frame) in
  max a' = max a /\ indent a' = indent a /\ quiet a' = quiet a /\ freq a' = freq a /\
  styles a' = styles a.
Proof.
  destruct (composeLine_args chalk cli_pct getNiceRemainingTime e a frame)
    as [->|(str & t & ->)]; repeat split; reflexivity.
Qed.

Lemma composeLine_nonempty (e : env) (a : args_t) (frame : nat) :
  snd (composeLine chalk cli_pct getNiceRemainingTime e a frame) <> [].
Proof.
  rewrite composeLine_split. cbn [snd]. unfold afterSpinner.
  intros H. apply app_eq_nil in H as [_ H]. apply app_eq_nil in H as [_ H].
  discriminate H.
Qed.

(** X11.  On a terminal [start] always leaves a running session: it has
    drawn once, so the frame counter is 1 and the last line is not
    empty; the timer runs at [freq]; [max] is not 0, whatever the
    overrides said; the indent is a string without a tab; and a listener
    for the exit of the process is registered. *)
Theorem start_begins_session (e : env) (overrides : option options)
    (w : session * process) :
  tty e = true ->
  let w' := start e overrides w in
  exists a,
    args (fst w') = Some a /\
    spinFrame (fst w') = 1%nat /\
    lastLine (fst w') <> [] /\
    timer (fst w') = Some (freq a) /\
    ~ (max a == 0)%Q /\
    (exists s, indent a = IndentStr s /\ TAB ∉ s) /\
    "exit"%string ∈ listeners (snd w').
Proof.
  intros Htty w'. subst w'. destruct w as [s p].
  unfold start, progress.start, progress.draw. rewrite Htty.
  cbn [negb args spinFrame lastLine timer fst].
  set (a0 := startArgs e overrides).
  pose proof (composeLine_keeps e a0 0) as Hkeep.
  pose proof (composeLine_nonempty e a0 0) as Hline.
  destruct (composeLine chalk cli_pct getNiceRemainingTime e a0 0) as [a1 line] eqn:Hc.
  cbn [fst snd] in Hkeep, Hline. destruct Hkeep as (Hmax & Hind & _ & Hfreq & _).
  destruct (startArgs_keys e overrides) as (Hm & Hi & _ & _ & _). fold a0 in Hm, Hi.
  cbn [args spinFrame lastLine timer fst snd overwriteLast nonempty].
  exists a1. split; [reflexivity|]. split; [reflexivity|]. split; [exact Hline|].
  split; [rewrite Hfreq; reflexivity|]. split; [|split].
  - rewrite Hmax, Hm.
    destruct (Qeq_bool (default 0%Q (o_max (default no_options overrides))) 0) eqn:E.
    + intros H. discriminate H.
    + intros H. apply Qeq_bool_iff in H. congruence.
  - rewrite Hind, Hi. eexists. split; [reflexivity|apply untab_no_tab].
  - destruct (catchInt a0), (catchTerm a0), (catchCrash a0); cbv iota;
      repeat first [apply once_here | apply once_keeps].
Qed.

(** X12.  A session started with [quiet] writes nothing while it runs:
    neither [start] nor [draw] nor [erase] adds to the output.  [end]
    still shows the cursor again, which [start] never hid: by the time
    it reads [quiet] the options are gone. *)
Theorem quiet_session_output (e : env) (o : options) (w : session * process) :
  tty e = true -> o_quiet o = Some true ->
  let w1 := start e (Some o) w in
  stdout (snd w1) = stdout (snd w) /\
  stdout (snd (draw e w1)) = stdout (snd w) /\
  stdout (snd (erase e w1)) = stdout (snd w) /\
  forall flag,
    stdout (snd (end_ e flag w1)) = stdout (snd w) ++ [ESC :: utf16 "[?25h"].
Proof.
  intros Htty Hq w1.
  assert (H1 : stdout (snd w1) = stdout (snd w) /\
               exists a1, args (fst w1) = Some a1 /\ quiet a1 = true).
  { subst w1. destruct w as [s p].
    unfold start, progress.start, progress.draw. rewrite Htty.
    cbn [negb args spinFrame lastLine timer fst].
    set (a0 := startArgs e (Some o)).
    pose proof (composeLine_keeps e a0 0) as Hkeep.
    destruct (composeLine chalk cli_pct getNiceRemainingTime e a0 0) as [a1 line].
    cbn [fst] in Hkeep. destruct Hkeep as (_ & _ & Hquiet & _).
    destruct (startArgs_keys e (Some o)) as (_ & _ & Hq0 & _).
    fold a0 in Hq0. change (default no_options (Some o)) with o in Hq0.
    rewrite Hq in Hq0. change (quiet a0 = true) in Hq0.
    rewrite Hq0 in Hquiet. rewrite Hquiet, Hq0. cbn [negb args].
    split; [|exists a1; split; [reflexivity|exact Hquiet]].
    destruct (catchInt a0), (catchTerm a0), (catchCrash a0); reflexivity. }
  destruct H1 as (Hout & a1 & Ha1 & Hq1). destruct w1 as [s1 p1].
  cbn [fst snd] in Hout, Ha1. rewrite <- Hout.
  split; [reflexivity|]. split; [|split].
  - unfold draw, progress.draw. rewrite Ha1, Htty. cbn [negb].
    pose proof (composeLine_keeps e a1 (spinFrame s1)) as Hkeep.
    destruct (composeLine chalk cli_pct getNiceRemainingTime e a1 (spinFrame s1))
      as [a2 line].
    cbn [fst] in Hkeep. destruct Hkeep as (_ & _ & Hquiet & _).
    rewrite Hquiet, Hq1. reflexivity.
  - unfold erase. rewrite Ha1, Htty, Hq1. cbn [negb]. rewrite andb_false_r. reflexivity.
  - intros flag. unfold end_, erase. rewrite Ha1, Htty, Hq1. cbn [negb].
    rewrite andb_false_r. destruct flag as [[|]|]; reflexivity.
Qed.

(** [end] on a terminal stops a running session and shows the cursor. *)
Lemma end_stops (e : env) (flag : option bool) (s : session) (p : process) :
  tty e = true -> running s = true ->
  running (fst (end_ e flag (s, p))) = false /\
  exists erased,
    stdout (snd (end_ e flag (s, p))) = stdout p ++ erased ++ [ESC :: utf16 "[?25h"].
Proof.
  intros Htty Hrun. unfold running in Hrun.
  destruct (args s) as [a|] eqn:Ha; [clear Hrun|discriminate].
  unfold end_, erase. rewrite Ha, Htty. cbn [negb].
  destruct flag as [[|]|];
    try destruct (nonempty (lastLine s) && negb (quiet a));
    cbn [fst snd running args write stdout];
    (split; [reflexivity|]);
    first [exists []; reflexivity | eexists [_]; rewrite <- app_assoc; reflexivity].
Qed.

(** X13.  [end] on a terminal closes a running session: it is no longer
    running, the timer and the last line are cleared, the last thing
    written is the sequence that shows the cursor, and with the argument
    [false] that is all that is written.  A second [end] then changes
    nothing and writes nothing. *)
Theorem end_closes_session (e : env) (flag : option bool)
    (s : session) (p : process) :
  tty e = true -> running s = true ->
  let w' := end_ e flag (s, p) in
  running (fst w') = false /\ timer (fst w') = None /\ lastLine (fst w') = [] /\
  (exists erased, stdout (snd w') = stdout p ++ erased ++ [ESC :: utf16 "[?25h"]) /\
  (flag = Some false -> stdout (snd w') = stdout p ++ [ESC :: utf16 "[?25h"]) /\
  listeners (snd w') = listeners p /\
  forall flag', end_ e flag' w' = w'.
Proof.
  intros Htty Hrun w'. subst w'. unfold running in Hrun.
  destruct (args s) as [a|] eqn:Ha; [clear Hrun|discriminate].
  unfold end_, erase. rewrite Ha, Htty. cbn [negb].
  destruct flag as [[|]|];
    try destruct (nonempty (lastLine s) && negb (quiet a));
    cbn [fst snd running args timer lastLine write stdout listeners];
    (split; [reflexivity|]); (split; [reflexivity|]); (split; [reflexivity|]);
    (split; [first [exists []; reflexivity
                   | eexists [_]; rewrite <- app_assoc; reflexivity]|]);
    (split; [try discriminate; try reflexivity|]);
    (split; [reflexivity|]); reflexivity.
Qed.

Lemma composeLine_unstyled (chalk' : string -> jsstring -> jsstring)
    (e : env) (a : args_t) (frame : nat) :
  styles a = no_styles ->
  composeLine chalk cli_pct getNiceRemainingTime e a frame
  = composeLine chalk' cli_pct getNiceRemainingTime e a frame.
Proof.
  intros Hst.
  unfold composeLine, pctSegment, remainSegment, textSegment, barStyles.
  destruct (Qlt_bool 0 (amount a) && Qlt_bool (amount a) (max a)
            && Qle_bool 5 (now e - timeStart a) && remain a);
    [destruct (Qle_bool 1 (now e - lastRemainCheck a))|];
    cbn [set_remain_cache mergeHashInto styles default o_styles];
    rewrite ?Hst;
    cbn [st_spinner st_braces st_bar st_indeterminate st_pct st_text st_remain
         no_styles applyStyles];
    destruct (Qeq_bool (amount a) (max a)); reflexivity.
Qed.

(** X14.  With [color: false] nothing is styled: [start] wipes the
    style lists, and the session it leaves and everything it writes are
    the same whatever chalk would do. *)
Theorem no_color_unstyled (chalk' : string -> jsstring -> jsstring)
    (e : env) (o : options) (w : session * process) :
  o_color o = Some false ->
  start e (Some o) w = progress.start chalk' cli_pct getNiceRemainingTime e (Some o) w.
Proof.
  intros Hcol. destruct w as [s p].
  unfold start, progress.start, progress.draw.
  destruct (tty e); [|reflexivity].
  cbn [negb args spinFrame lastLine timer fst].
  set (a0 := startArgs e (Some o)).
  assert (Hst : styles a0 = no_styles).
  { destruct (startArgs_keys e (Some o)) as (_ & _ & _ & _ & H). apply H.
    change (default no_options (Some o)) with o. rewrite Hcol. reflexivity. }
  rewrite (composeLine_unstyled chalk' e a0 0 Hst). reflexivity.
Qed.

End SessionProperties.

Lemma start_begins_session_witness :
  let w' := progress.start plain_chalk sample_pct sample_remain terminal None idle in
  exists a,
    progress.args (fst w') = Some a /\
    progress.spinFrame (fst w') = 1%nat /\
    progress.lastLine (fst w') <> [] /\
    progress.timer (fst w') = Some (progress.freq a) /\
    ~ (progress.max a == 0)%Q /\
    (exists s, progress.indent a = IndentStr s /\ TAB ∉ s) /\
    "exit"%string ∈ progress.listeners (snd w').
Proof.
  apply (start_begins_session plain_chalk sample_pct sample_remain terminal None idle).
  reflexivity.
Defined.

Lemma quiet_session_output_witness :
  let w1 := progress.start plain_chalk sample_pct sample_remain terminal
              (Some quietly) idle in
  progress.stdout (snd w1) = progress.stdout (snd idle) /\
  progress.stdout (snd (progress.draw plain_chalk sample_pct sample_remain terminal w1))
  = progress.stdout (snd idle) /\
  progress.stdout (snd (progress.erase terminal w1)) = progress.stdout (snd idle) /\
  forall flag,
    progress.stdout (snd (progress.end_ terminal flag w1))
    = progress.stdout (snd idle) ++ [ESC :: utf16 "[?25h"].
Proof.
  apply (quiet_session_output plain_chalk sample_pct sample_remain terminal quietly idle);
    reflexivity.
Defined.

Lemma end_closes_session_witness :
  let w' := progress.end_ terminal None (fresh, silent) in
  progress.running (fst w') = false /\ progress.timer (fst w') = None /\
  progress.lastLine (fst w') = [] /\
  (exists erased,
     progress.stdout (snd w')
     = progress.stdout silent ++ erased ++ [ESC :: utf16 "[?25h"]) /\
  (@None bool = Some false ->
   progress.stdout (snd w') = progress.stdout silent ++ [ESC :: utf16 "[?25h"]) /\
  progress.listeners (snd w') = progress.listeners silent /\
  forall flag', progress.end_ terminal flag' w' = w'.
Proof.
  apply (end_closes_session terminal None fresh silent); reflexivity.
Defined.

Lemma no_color_unstyled_witness :
  progress.start plain_chalk sample_pct sample_remain terminal (Some colourless) idle
  = progress.start (fun _ text => ESC :: text) sample_pct sample_remain terminal
      (Some colourless) idle.
Proof.
  apply (no_color_unstyled plain_chalk sample_pct sample_remain
           (fun _ text => ESC :: text) terminal colourless idle).
  reflexivity.
Defined.

(** * Output and the log *)

Section OutputProperties.

Variable chalk : string -> jsstring -> jsstring.
Variable cli_pct : Q -> Q -> jsstring.
Variable getNiceRemainingTime : Q -> Q -> Q -> jsstring.
Variable getDateArgs : Q -> jsstring * jsstring.

Let log' := log getDateArgs.
Let print' := print chalk cli_pct getNiceRemainingTime getDateArgs.
Let verbose' := verbose chalk cli_pct getNiceRemainingTime getDateArgs.
Let warn' := warn chalk cli_pct getNiceRemainingTime getDateArgs.
Let die' := die chalk cli_pct getNiceRemainingTime getDateArgs.
Let draw_bar' := draw_bar chalk cli_pct getNiceRemainingTime.

(** [log] reads the log file and adds to the appended lines; it touches
    nothing else. *)
Lemma log_frame (e : env) (msg : jsstring) (c : cli_state) :
  cli_quiet (log' e msg c) = cli_quiet c /\ cli_verbose (log' e msg c) = cli_verbose c /\
  logFile (log' e msg c) = logFile c /\ stderr (log' e msg c) = stderr c /\
  exit_status (log' e msg c) = exit_status c /\ bar (log' e msg c) = bar c.
Proof.
  unfold log', log. destruct (logFile c) as [file|] eqn:E; [|auto 7].
  destruct (String.eqb file ""); [repeat split; try reflexivity; exact E|].
  destruct (forallb is_space msg); [repeat split; try reflexivity; exact E|].
  repeat split; try reflexivity.
Qed.

Lemma log_appended (e : env) (msg : jsstring) (c c' : cli_state) :
  logFile c' = logFile c ->
  exists entries,
    appended (log' e msg c) = appended c ++ entries /\
    appended (log' e msg c') = appended c' ++ entries.
Proof.
  intros Hf. unfold log', log. rewrite Hf.
  destruct (logFile c) as [file|]; [|exists []; rewrite !app_nil_r; auto].
  destruct (String.eqb file ""); [exists []; rewrite !app_nil_r; auto|].
  destruct (forallb is_space msg); [exists []; rewrite !app_nil_r; auto|].
  eexists. cbn. split; reflexivity.
Qed.

(** What [erase] and [draw] of the bar change: the bar. *)
Lemma erase_bar_frame (e : env) (c : cli_state) :
  cli_quiet (erase_bar e c) = cli_quiet c /\ logFile (erase_bar e c) = logFile c /\
  appended (erase_bar e c) = appended c /\ stderr (erase_bar e c) = stderr c /\
  exit_status (erase_bar e c) = exit_status c /\
  progress.running (fst (bar (erase_bar e c))) = progress.running (fst (bar c)) /\
  exists written,
    progress.stdout (snd (bar (erase_bar e c)))
    = progress.stdout (snd (bar c)) ++ written /\
    (progress.running (fst (bar c)) = false -> written = []).
Proof.
  unfold erase_bar. destruct (progress.running (fst (bar c))) eqn:Hrun.
  - cbn [set_bar cli_quiet logFile appended stderr exit_status bar].
    repeat (split; [reflexivity|]).
    unfold progress.erase, progress.running in *. destruct (bar c) as [s p].
    cbn [fst snd] in *. destruct (progress.args s) as [a|] eqn:Ha; [|discriminate].
    destruct (negb (tty e));
      [cbn [fst snd]; rewrite ?Ha; split; [reflexivity|];
       exists []; rewrite app_nil_r; split; [reflexivity|discriminate]|].
    destruct (nonempty (progress.lastLine s) && negb (progress.quiet a));
      cbn [fst snd]; rewrite ?Ha; (split; [reflexivity|]).
    + eexists. split; [reflexivity|discriminate].
    + exists []. rewrite app_nil_r. split; [reflexivity|discriminate].
  - rewrite Hrun. repeat (split; [reflexivity|]).
    exists []. rewrite app_nil_r. split; reflexivity.
Qed.

Lemma draw_bar_frame (e : env) (c : cli_state) :
  cli_quiet (draw_bar' e c) = cli_quiet c /\ logFile (draw_bar' e c) = logFile c /\
  appended (draw_bar' e c) = appended c /\ stderr (draw_bar' e c) = stderr c /\
  exit_status (draw_bar' e c) = exit_status c /\
  progress.running (fst (bar (draw_bar' e c))) = progress.running (fst (bar c)) /\
  exists written,
    progress.stdout (snd (bar (draw_bar' e c)))
    = progress.stdout (snd (bar c)) ++ written /\
    (progress.running (fst (bar c)) = false -> written = []).
Proof.
  unfold draw_bar', draw_bar.
  destruct (progress.running (fst (bar c))) eqn:Hrun.
  - cbn [set_bar cli_quiet logFile appended stderr exit_status bar].
    repeat (split; [reflexivity|]).
    unfold progress.draw, progress.running in *. destruct (bar c) as [s p].
    cbn [fst snd] in *. destruct (progress.args s) as [a|] eqn:Ha; [|discriminate].
    destruct (negb (tty e));
      [cbn [fst snd]; rewrite ?Ha; split; [reflexivity|];
       exists []; rewrite app_nil_r; split; [reflexivity|discriminate]|].
    destruct (progress.composeLine chalk cli_pct getNiceRemainingTime e a
                (progress.spinFrame s)) as [a' line].
    cbn [fst snd progress.args]. split; [reflexivity|].
    destruct (negb (progress.quiet a')).
    + eexists. split; [reflexivity|discriminate].
    + exists []. rewrite app_nil_r. split; [reflexivity|discriminate].
  - rewrite Hrun. repeat (split; [reflexivity|]).
    exists []. rewrite app_nil_r. split; reflexivity.
Qed.

(** X15.  What goes to the log does not depend on where else the
    message goes: [print], [verbose] and [warn] append to the log file
    exactly what [log] appends for the same message, whether or not
    [quiet] or [verbose] is set and whether or not a bar is running. *)
Theorem output_is_logged (e : env) (msg : jsstring) (c : cli_state) :
  appended (print' e msg c) = appended (log' e msg c) /\
  appended (verbose' e msg c) = appended (log' e msg c) /\
  appended (warn' e msg c) = appended (log' e msg c).
Proof.
  assert (Hp : appended (print' e msg c) = appended (log' e msg c)).
  { unfold print', print. destruct (negb (cli_quiet c)); [|reflexivity].
    set (c1 := erase_bar e c). set (c2 := write_stdout msg c1).
    set (c3 := draw_bar chalk cli_pct getNiceRemainingTime e c2).
    destruct (erase_bar_frame e c) as (_ & Hf1 & Ha1 & _).
    destruct (draw_bar_frame e c2) as (_ & Hf3 & Ha3 & _).
    assert (Hf : logFile c3 = logFile c) by (etransitivity; [exact Hf3|exact Hf1]).
    assert (Ha : appended c3 = appended c) by (etransitivity; [exact Ha3|exact Ha1]).
    destruct (log_appended e msg c c3 Hf) as (entries & H1 & H2).
    fold log'. rewrite H1, H2, Ha. reflexivity. }
  split; [exact Hp|]. split.
  - unfold verbose', verbose. destruct (cli_verbose c); [exact Hp|reflexivity].
  - unfold warn', warn. destruct (negb (cli_quiet c)); [|reflexivity].
    set (c1 := erase_bar e c). set (c2 := write_stderr msg c1).
    set (c3 := draw_bar chalk cli_pct getNiceRemainingTime e c2).
    destruct (erase_bar_frame e c) as (_ & Hf1 & Ha1 & _).
    destruct (draw_bar_frame e c2) as (_ & Hf3 & Ha3 & _).
    assert (Hf : logFile c3 = logFile c) by (etransitivity; [exact Hf3|exact Hf1]).
    assert (Ha : appended c3 = appended c) by (etransitivity; [exact Ha3|exact Ha1]).
    destruct (log_appended e msg c c3 Hf) as (entries & H1 & H2).
    fold log'. rewrite H1, H2, Ha. reflexivity.
Qed.

(** Where [warn] writes. *)
Lemma warn_streams (e : env) (msg : jsstring) (c : cli_state) :
  stderr (warn' e msg c) = stderr c ++ (if cli_quiet c then [] else [msg]) /\
  (progress.running (fst (bar c)) = false ->
   progress.stdout (snd (bar (warn' e msg c))) = progress.stdout (snd (bar c))).
Proof.
  unfold warn', warn.
  destruct (log_frame e msg
              (if negb (cli_quiet c)
               then draw_bar chalk cli_pct getNiceRemainingTime e
                      (write_stderr msg (erase_bar e c))
               else c)) as (_ & _ & _ & Hse & _ & Hbar).
  fold log'. rewrite Hse, Hbar. clear Hse Hbar.
  destruct (erase_bar_frame e c) as (_ & _ & _ & Hs1 & _ & Hr1 & w1 & Ho1 & Hn1).
  destruct (draw_bar_frame e (write_stderr msg (erase_bar e c)))
    as (_ & _ & _ & Hs3 & _ & _ & w3 & Ho3 & Hn3).
  fold draw_bar'.
  destruct (cli_quiet c); cbn [negb].
  - rewrite app_nil_r. split; reflexivity.
  - split.
    + rewrite Hs3. cbn [write_stderr stderr]. rewrite Hs1. reflexivity.
    + intros Hrun. rewrite Ho3, Hn3.
      * rewrite app_nil_r. cbn [write_stderr bar]. rewrite Ho1, (Hn1 Hrun).
        apply app_nil_r.
      * cbn [write_stderr bar]. rewrite Hr1. exact Hrun.
Qed.


(** X17.  [die] asks for exit status 1, writes its message to stderr
    unless [quiet] is set, and on a terminal leaves no bar running: a
    bar that was running has been ended, so the last thing on stdout is
    the sequence that shows the cursor. *)
Theorem die_exits (e : env) (msg : jsstring) (c : cli_state) :
  exit_status (die' e msg c) = Some 1 /\
  stderr (die' e msg c) = stderr c ++ (if cli_quiet c then [] else [msg]) /\
  (tty e = true ->
   progress.running (fst (bar (die' e msg c))) = false /\
   (progress.running (fst (bar c)) = true ->
    last (progress.stdout (snd (bar (die' e msg c)))) = Some (ESC :: utf16 "[?25h"))).
Proof.
  unfold die', die. cbn [exit_status stderr bar].
  split; [reflexivity|].
  set (c0 := if progress.running (fst (bar c))
             then set_bar c (progress.end_ e None (bar c)) else c).
  assert (H0 : stderr c0 = stderr c /\ cli_quiet c0 = cli_quiet c).
  { unfold c0. destruct (progress.running (fst (bar c))); split; reflexivity. }
  destruct H0 as [Hs0 Hq0].
  destruct (warn_streams e msg c0) as [Hwarn Hout].
  fold warn'. split; [rewrite Hwarn, Hs0, Hq0; reflexivity|].
  intros Htty.
  assert (Hrun0 : progress.running (fst (bar c0)) = false).
  { unfold c0. destruct (progress.running (fst (bar c))) eqn:Hrun; [|exact Hrun].
    cbn [set_bar bar]. destruct (bar c) as [s p].
    destruct (end_stops e None s p Htty Hrun) as (H & _). exact H. }
  split.
  - unfold warn', warn.
    destruct (log_frame e msg
                (if negb (cli_quiet c0)
                 then draw_bar chalk cli_pct getNiceRemainingTime e
                        (write_stderr msg (erase_bar e c0))
                 else c0)) as (_ & _ & _ & _ & _ & Hbar).
    fold log'. rewrite Hbar. destruct (negb (cli_quiet c0)); [|exact Hrun0].
    destruct (draw_bar_frame e (write_stderr msg (erase_bar e c0)))
      as (_ & _ & _ & _ & _ & Hr3 & _).
    destruct (erase_bar_frame e c0) as (_ & _ & _ & _ & _ & Hr1 & _).
    fold draw_bar'. rewrite Hr3. cbn [write_stderr bar]. rewrite Hr1. exact Hrun0.
  - intros Hrun. rewrite (Hout Hrun0). unfold c0. rewrite Hrun.
    cbn [set_bar bar]. destruct (bar c) as [s p].
    destruct (end_stops e None s p Htty Hrun) as (_ & er & H).
    rewrite H, app_assoc. apply last_snoc.
Qed.

End OutputProperties.


Lemma die_exits_witness :
  progress.running
    (fst (bar (die plain_chalk sample_pct sample_remain sample_date
                 terminal (utf16 "fatal") console_with_bar))) = false /\
  (progress.running (fst (bar console_with_bar)) = true ->
   last (progress.stdout
           (snd (bar (die plain_chalk sample_pct sample_remain sample_date
                        terminal (utf16 "fatal") console_with_bar))))
   = Some (ESC :: utf16 "[?25h")).
Proof.
  apply (proj2 (proj2
           (die_exits plain_chalk sample_pct sample_remain sample_date
              terminal (utf16 "fatal") console_with_bar))).
  reflexivity.
Defined.

(** * Argument aliases *)

Section MapArgsProperties.

Variable value : Type.

Implicit Types (aliases : list (string * string)) (args : gmap string value).





End MapArgsProperties.



(** * The question of a prompt *)

(** X20.  The question [prompt] shows starts with the text it was given
    and always ends in a white-space character, whatever the text and
    the default are; off a terminal no question is shown and the
    callback gets the default. *)
Theorem prompt_question (e : env) (text def typed : jsstring) :
  (exists rest, promptText text def = text ++ rest) /\
  (exists front c, promptText text def = front ++ [c] /\ is_space c = true) /\
  (tty e = false -> prompt e text def typed = (None, def)).
Proof.
  split; [|split].
  - unfold promptText.
    destruct (last text) as [c|]; [destruct (is_space c)|]; destruct (nonempty def);
      rewrite <- ?app_assoc; eexists; try reflexivity; symmetry; apply app_nil_r.
  - unfold promptText. destruct (nonempty def).
    + exists (match last text with
              | Some c => if is_space c then text else text ++ utf16 " "
              | None => text ++ utf16 " "
              end ++ utf16 "[" ++ def ++ utf16 "]"), SP.
      rewrite <- !app_assoc. split; reflexivity.
    + destruct (last text) as [c|] eqn:El; [destruct (is_space c) eqn:Es|].
      * apply last_Some in El as [front ->]. exists front, c. split; [reflexivity|exact Es].
      * exists text, SP. split; reflexivity.
      * exists text, SP. split; reflexivity.
  - intros Htty. unfold prompt. rewrite Htty. reflexivity.
Qed.

Lemma prompt_question_witness :
  prompt redirected (utf16 "Name?") (utf16 "Al") (utf16 "Bo") = (None, utf16 "Al").
Proof.
  apply (proj2 (proj2 (prompt_question redirected (utf16 "Name?") (utf16 "Al")
                         (utf16 "Bo")))).
  reflexivity.
Defined.

(** * The lines of a tree *)

Lemma join_cons (sep x : jsstring) (l : list jsstring) :
  l <> [] -> join sep (x :: l) = x ++ sep ++ join sep l.
Proof. destruct l; [congruence|reflexivity]. Qed.

Lemma join_app (sep : jsstring) (xs ys : list jsstring) :
  xs <> [] -> ys <> [] ->
  join sep (xs ++ ys) = join sep xs ++ sep ++ join sep ys.
Proof.
  intros Hx Hy. induction xs as [|x xs IH]; [congruence|].
  destruct xs as [|x' xs].
  - cbn [app]. rewrite join_cons by exact Hy. reflexivity.
  - change ((x :: x' :: xs) ++ ys) with (x :: ((x' :: xs) ++ ys)).
    rewrite join_cons by discriminate. rewrite IH by discriminate.
    rewrite (join_cons sep x (x' :: xs)) by discriminate.
    rewrite <- !app_assoc. reflexivity.
Qed.

(** A joined block pushed as one element reads as its lines pushed one
    by one. *)
Lemma join_splice (sep x : jsstring) (ys zs : list jsstring) :
  join sep (x :: (if nonempty (join sep ys) then [join sep ys] else []) ++ zs)
  = join sep (x :: ys ++ zs) \/ (ys <> [] /\ join sep ys = []).
Proof.
  destruct ys as [|y ys]; [left; reflexivity|].
  destruct (join sep (y :: ys)) as [|c r] eqn:E; [right; split; [discriminate|reflexivity]|].
  left. cbn [nonempty]. rewrite <- E.
  change ([join sep (y :: ys)] ++ zs) with (join sep (y :: ys) :: zs).
  rewrite (join_cons sep x (join sep (y :: ys) :: zs)) by discriminate.
  rewrite (join_cons sep x ((y :: ys) ++ zs)) by discriminate.
  do 2 f_equal. destruct zs as [|z zs].
  - rewrite app_nil_r. reflexivity.
  - rewrite join_cons by discriminate.
    rewrite (join_app sep (y :: ys) (z :: zs)) by discriminate. reflexivity.
Qed.

Lemma join_nonempty (sep : jsstring) (l : list jsstring) :
  l <> [] -> Forall (fun x => x <> []) l -> join sep l <> [].
Proof.
  intros Hne Hall. destruct l as [|x l]; [congruence|].
  apply Forall_cons in Hall as [Hx _].
  destruct l; cbn [join]; [exact Hx|].
  intros H. apply app_eq_nil in H as [H _]. exact (Hx H).
Qed.

Lemma entry_induction (P : entry -> Prop) :
  (forall filename, P (File filename)) ->
  (forall filename, P (Symlink filename)) ->
  (forall filename children, Forall P children -> P (Dir filename children)) ->
  forall x, P x.
Proof.
  intros HF HS HD. fix IH 1. intros [filename|filename|filename children].
  - apply HF.
  - apply HS.
  - apply HD. induction children as [|y l IHl]; constructor; [apply IH|exact IHl].
Qed.

Section TreeProperties.

Variable chalk : string -> jsstring -> jsstring.

Lemma treePrefix_nonempty (a : tree_args) (indent : jsstring) (last : bool)
    (rest : jsstring) :
  treePrefix chalk a indent last ++ rest <> [].
Proof.
  unfold treePrefix. rewrite <- !app_assoc. intros H.
  apply app_eq_nil in H as [_ H]. apply app_eq_nil in H as [_ H]. discriminate H.
Qed.

(** The lines of a walk: none of them empty, as many as entries listed. *)
Lemma walk_lines (a : tree_args) (entries : list entry) :
  Forall (fun x => forall indent last,
            Forall (fun line => line <> []) (entryLines chalk a indent last x) /\
            length (entryLines chalk a indent last x) = listedBelow a x) entries ->
  forall indent,
    Forall (fun line => line <> []) (walk (entryLines chalk a indent) a entries) /\
    length (walk (entryLines chalk a indent) a entries) = listedCount a entries.
Proof.
  intros Hall indent. induction Hall as [|x l Hx _ IH]; [split; [constructor|reflexivity]|].
  cbn [walk listedCount]. destruct IH as [IH1 IH2].
  destruct (listed a x).
  - destruct (Hx indent (match l with [] => true | _ => false end)) as [H1 H2].
    split; [apply Forall_app; split; assumption|].
    rewrite length_app, H2. f_equal. exact IH2.
  - split; [exact IH1|exact IH2].
Qed.

Lemma entryLines_facts (a : tree_args) (x : entry) :
  forall indent last,
    Forall (fun line => line <> []) (entryLines chalk a indent last x) /\
    length (entryLines chalk a indent last x) = listedBelow a x.
Proof.
  induction x as [filename|filename|filename children IH] using entry_induction;
    intros indent last.
  - split; [constructor; [apply treePrefix_nonempty|constructor]|reflexivity].
  - split; [constructor; [apply treePrefix_nonempty|constructor]|reflexivity].
  - cbn [entryLines listedBelow].
    destruct (walk_lines a children IH (treeIndent chalk a indent last)) as [H1 H2].
    split; [constructor; [apply treePrefix_nonempty|exact H1]|].
    cbn [length]. f_equal. exact H2.
Qed.

(** Joined, what the walk of the source pushes reads as the lines. *)
Lemma walk_join (a : tree_args) (entries : list entry) :
  Forall (fun x => forall indent last,
            join [LF] (treeEntry chalk a indent last x)
            = join [LF] (entryLines chalk a indent last x)) entries ->
  forall indent,
    join [LF] (walk (treeEntry chalk a indent) a entries)
    = join [LF] (walk (entryLines chalk a indent) a entries) /\
    (walk (treeEntry chalk a indent) a entries = []
     <-> walk (entryLines chalk a indent) a entries = []).
Proof.
  intros Hall indent. induction Hall as [|x l Hx _ IH]; [split; [reflexivity|tauto]|].
  cbn [walk]. destruct IH as [IH1 IH2]. destruct (listed a x); [|split; assumption].
  set (last := match l with [] => true | _ => false end).
  assert (Ht : treeEntry chalk a indent last x <> []) by (destruct x; discriminate).
  assert (He : entryLines chalk a indent last x <> []) by (destruct x; discriminate).
  split.
  - destruct (walk (entryLines chalk a indent) a l) as [|z zs] eqn:E.
    + rewrite (proj2 IH2 eq_refl), !app_nil_r. apply Hx.
    + assert (Hne : walk (treeEntry chalk a indent) a l <> []).
      { intros H. apply IH2 in H. discriminate H. }
      rewrite !join_app by (assumption || discriminate). rewrite Hx, IH1. reflexivity.
  - split; intros H; apply app_eq_nil in H as [H _]; contradiction.
Qed.

Lemma treeEntry_join (a : tree_args) (x : entry) :
  forall indent last,
    join [LF] (treeEntry chalk a indent last x)
    = join [LF] (entryLines chalk a indent last x).
Proof.
  induction x as [filename|filename|filename children IH] using entry_induction;
    intros indent last; [reflexivity|reflexivity|].
  cbn [treeEntry entryLines].
  destruct (walk_join a children IH (treeIndent chalk a indent last)) as [Hj He].
  rewrite Hj.
  pose proof (join_splice [LF]
                (treePrefix chalk a indent last
                 ++ applyStyles chalk (filename ++ utf16 "/")
                      (Some (default [Named "bold"; Named "yellow"] (folderStyles a))))
                (walk (entryLines chalk a (treeIndent chalk a indent last)) a children)
                []) as Hs.
  rewrite !app_nil_r in Hs. destruct Hs as [Hs|[Hne Hnil]]; [exact Hs|].
  exfalso. revert Hnil. apply join_nonempty; [exact Hne|].
  apply walk_lines. apply Forall_forall. intros y _. apply entryLines_facts.
Qed.

(** X21.  What [tree] returns for a directory, called without an
    indent, is the line of the directory followed by one line for every
    entry that is listed, in the order of the directory and with the
    entries of a listed directory right below its own line, all joined
    by line feeds: the string a nested call returns is spliced in as its
    lines, and an empty one is left out.  None of the lines of the
    entries is empty. *)
Theorem tree_lines (name : jsstring) (entries : list entry) (args : option tree_args) :
  let a := default no_tree_args args in
  let lines := walk (entryLines chalk a []) a entries in
  tree chalk name entries [] args
  = join [LF]
      (applyStyles chalk (name ++ utf16 "/")
         (Some (default [Named "bold"; Named "yellow"] (folderStyles a)))
       :: lines) /\
  length lines = listedCount a entries /\
  Forall (fun line => line <> []) lines.
Proof.
  intros a lines.
  assert (Hfacts : Forall (fun x => forall indent last,
                     Forall (fun line => line <> []) (entryLines chalk a indent last x) /\
                     length (entryLines chalk a indent last x) = listedBelow a x) entries)
    by (apply Forall_forall; intros y _; apply entryLines_facts).
  destruct (walk_lines a entries Hfacts []) as [Hne Hlen].
  split; [|split; assumption].
  unfold tree. fold a. cbn [nonempty app].
  assert (Hjoin : Forall (fun x => forall indent last,
                    join [LF] (treeEntry chalk a indent last x)
                    = join [LF] (entryLines chalk a indent last x)) entries)
    by (apply Forall_forall; intros y _; apply treeEntry_join).
  destruct (walk_join a entries Hjoin []) as [Hj He]. fold lines in Hj, He.
  destruct lines as [|z zs] eqn:El.
  - rewrite (proj2 He eq_refl). reflexivity.
  - assert (Hw : walk (treeEntry chalk a []) a entries <> []).
    { intros H. apply He in H. discriminate H. }
    rewrite !join_cons by (assumption || discriminate). rewrite Hj. reflexivity.
Qed.

End TreeProperties.

Example tree_sample :
  tree plain_chalk (utf16 "src")
    [Dir (utf16 "lib") [File (utf16 "a.js"); File (utf16 "b.js")];
     Dir (utf16 "tmp") [];
     File (utf16 "index.js")] [] None
  = join [LF] [utf16 "src/";
               utf16 " ├ lib/";
               utf16 " │  ├ a.js";
               utf16 " │  └ b.js";
               utf16 " ├ tmp/";
               utf16 " └ index.js"].
Proof. vm_compute. reflexivity. Qed.

(** An entry that the filter hides still counts as the last one of its
    directory: no listed entry then gets the closing corner. *)
Example tree_hidden_last :
  tree plain_chalk (utf16 "src") [File (utf16 "a.js"); File (utf16 "b.bak")] []
    (Some {| folderStyles := None; fileStyles := None; symlinkStyles := None;
             lineStyles := None; includeFilter := None;
             excludeFilter := Some (fun name => bool_decide (drop 1 name = utf16 ".bak")) |})
  = join [LF] [utf16 "src/"; utf16 " ├ a.js"].
Proof. vm_compute. reflexivity. Qed.

(** * Styles in order, auto-fit off a terminal, colours in the log *)


(** X23.  Off a terminal [width] is 0, so [autoFitTableRows] finds no
    room at all and returns at once: the rows stay as they are, and
    [table] draws the same with [autoFit] as without. *)
Theorem autofit_off_terminal (chalk : string -> jsstring -> jsstring)
    (e : env) (rows : grid) (ind : jsstring) (a : table_args) :
  tty e = false ->
  autoFitTableRows e rows ind = rows /\
  table chalk e rows
    (Some {| headerStyles := headerStyles a; borderStyles := borderStyles a;
             textStyles := textStyles a; indent := indent a; autoFit := true |})
  = table chalk e rows
      (Some {| headerStyles := headerStyles a; borderStyles := borderStyles a;
               textStyles := textStyles a; indent := indent a; autoFit := false |}).
Proof.
  intros Htty.
  assert (H : forall ind, autoFitTableRows e rows ind = rows).
  { intros i. unfold autoFitTableRows, width. rewrite Htty. cbn [negb].
    pose proof (stringWidth_nonneg i).
    destruct (Z.ltb_spec (0 - stringWidth i * 2) 1); [reflexivity|lia]. }
  split; [apply H|].
  unfold table, tableLines. cbn [default headerStyles borderStyles textStyles indent autoFit].
  rewrite H. reflexivity.
Qed.

Lemma autofit_off_terminal_witness :
  autoFitTableRows redirected name_age [] = name_age.
Proof.
  apply (proj1 (autofit_off_terminal plain_chalk redirected name_age [] no_table_args
                  eq_refl)).
Defined.

Lemma trim_start_keeps (c : char) (s : jsstring) :
  is_space c = false -> trim_start (c :: s) = c :: s.
Proof. intros H. cbn [trim_start]. rewrite H. reflexivity. Qed.

(** A text that neither starts nor ends in white space is its own trim. *)
Lemma trim_keeps (c d : char) (s : jsstring) :
  is_space c = false -> is_space d = false ->
  trim (c :: s ++ [d]) = c :: s ++ [d].
Proof.
  intros Hc Hd. unfold trim. rewrite (trim_start_keeps c _ Hc).
  change (c :: s ++ [d]) with ((c :: s) ++ [d]). rewrite rev_app_distr.
  cbn [rev app]. rewrite (trim_start_keeps d _ Hd).
  change (d :: rev s ++ [c]) with ([d] ++ rev (c :: s)).
  rewrite rev_app_distr, rev_involutive. reflexivity.
Qed.

Section LogProperties.

Variable getDateArgs : Q -> jsstring * jsstring.

(** X24.  A message that is a plain text between two colour sequences
    goes to the log without its colours: with a log file set, [log]
    appends one line to it, the date and the time between brackets, then
    the text, trimmed, and a line feed. *)
Theorem log_line_plain (e : env) (file : string) (open close text : jsstring)
    (c : cli_state) :
  logFile c = Some file -> file <> ""%string ->
  sgr_code open = true -> sgr_code close = true -> simple text = true ->
  appended (log getDateArgs e (sgr open ++ text ++ sgr close) c)
  = appended c
    ++ [(file, utf16 "[" ++ fst (getDateArgs (now e)) ++ utf16 " "
               ++ snd (getDateArgs (now e)) ++ utf16 "] " ++ trim text ++ [LF])].
Proof.
  intros Hf Hne Ho Hc Ht.
  assert (Hshape : sgr open ++ text ++ sgr close
                   = ESC :: (0x5B%N :: open ++ [0x6D%N] ++ text
                             ++ ESC :: 0x5B%N :: close) ++ [0x6D%N]).
  { unfold sgr. cbn [app]. rewrite <- !app_assoc. cbn [app]. rewrite <- !app_assoc.
    reflexivity. }
  assert (Hs : stripColor (sgr open ++ text ++ sgr close) = text).
  { unfold stripColor. rewrite remove_all_sgr; [|exact Ho|].
    - rewrite (remove_all_simple_app text _ Ht).
      rewrite <- (app_nil_r (sgr close)).
      rewrite (remove_all_sgr close [] Hc); [apply app_nil_r|].
      intros H; inversion H.
    - intros Hin. apply elem_of_app in Hin as [Hin|Hin].
      + exact (simple_not_bel text Ht Hin).
      + exact (sgr_not_bel close Hc Hin). }
  remember (sgr open ++ text ++ sgr close) as msg eqn:Hmsg.
  assert (Hblank : forallb is_space msg = false) by (rewrite Hshape; reflexivity).
  assert (Htrim : trim msg = msg).
  { rewrite Hshape. apply (trim_keeps ESC 0x6D%N); reflexivity. }
  unfold log. rewrite Hf. destruct (String.eqb_spec file ""); [contradiction|].
  rewrite Hblank, Htrim, Hs. reflexivity.
Qed.

End LogProperties.

Lemma log_line_plain_witness :
  appended (log sample_date terminal
              (sgr (utf16 "31") ++ utf16 "done" ++ sgr (utf16 "39")) console_with_bar)
  = appended console_with_bar
    ++ [("run.log"%string,
         utf16 "[" ++ fst (sample_date (now terminal)) ++ utf16 " "
         ++ snd (sample_date (now terminal)) ++ utf16 "] "
         ++ trim (utf16 "done") ++ [LF])].
Proof.
  apply (log_line_plain sample_date terminal "run.log" (utf16 "31") (utf16 "39")
           (utf16 "done") console_with_bar);
    [reflexivity|discriminate|reflexivity|reflexivity|reflexivity].
Defined.

